(** * go-bluetooth: the documentation-to-binding pipeline and its runtime
  conventions

  A shallow embedding of
  - [gen/parser/property.go]: the property block parser, with the part of
    Go's [strings] and [regexp] packages that it calls;
  - [bluez/profile/media/gen_MediaTransport1.go]: the generated property
    getters and setters, the [ToMap]/[FromMap] wrappers and the signal
    subscriptions, which its sibling generated files share;
  - the MPU sensor of package [sensortag], with the part of Go's
    [encoding/binary] that it calls;
  - the property marshaller and the template code generator, whose
    sources are not part of the repository snapshot and are modelled from
    the specification.

  Go strings and byte slices are sequences of bytes: [text] is
  [list ascii].  Every byte that the parser compares against is ASCII, and
  an ASCII byte never occurs inside a multi-byte UTF-8 sequence, so matching
  byte by byte and matching rune by rune agree on the two patterns below. *)

From Stdlib Require Import Ascii String.
From stdpp Require Import gmap strings list fin_maps.

Open Scope list_scope.

(** ** Text *)

Definition text : Type := list ascii.

(** A literal of the source, as bytes. *)
Definition T (s : string) : text := list_ascii_of_string s.

Definition LF : ascii := "010"%char.
Definition TAB : ascii := "009"%char.
Definition SP : ascii := " "%char.

(** ** Package [strings] *)

Module strings.

(** [strings.HasPrefix(s, prefix)] *)
Fixpoint HasPrefix (s prefix : text) {struct prefix} : bool :=
  match prefix, s with
  | [], _ => true
  | _ :: _, [] => false
  | p :: prefix', a :: s' => Ascii.eqb p a && HasPrefix s' prefix'
  end.

(** [strings.Contains(s, substr)] *)
Fixpoint Contains (s substr : text) : bool :=
  HasPrefix s substr ||
  match s with
  | [] => false
  | _ :: s' => Contains s' substr
  end.

(** Membership of a byte in a cutset. *)
Definition in_cutset (cutset : text) (a : ascii) : bool :=
  existsb (Ascii.eqb a) cutset.

(** [strings.TrimLeft(s, cutset)] *)
Fixpoint TrimLeft (s cutset : text) : text :=
  match s with
  | [] => []
  | a :: s' => if in_cutset cutset a then TrimLeft s' cutset else s
  end.

(** [strings.TrimRight(s, cutset)] *)
Definition TrimRight (s cutset : text) : text :=
  reverse (TrimLeft (reverse s) cutset).

(** [strings.Trim(s, cutset)]: all leading and trailing bytes contained in
    [cutset] removed. *)
Definition Trim (s cutset : text) : text :=
  TrimRight (TrimLeft s cutset) cutset.

(** The scanning loop of [Replace]: [skip] counts the bytes of an
    occurrence of [old] that is being passed over. *)
Fixpoint replace_from (old new s : text) (skip : nat) : text :=
  match s with
  | [] => []
  | a :: s' =>
      match skip with
      | S k => replace_from old new s' k
      | O =>
          if HasPrefix s old
          then new ++ replace_from old new s' (length old - 1)
          else a :: replace_from old new s' 0
      end
  end.

(** [strings.Replace(s, old, new, -1)] for a non-empty [old]: every
    non-overlapping occurrence, scanning from the left. *)
Definition Replace (s old new : text) : text :=
  replace_from old new s 0.

(** The scanning loop of [Split]: [cur] is the current piece, reversed. *)
Fixpoint split_from (sep s cur : text) (skip : nat) : list text :=
  match s with
  | [] => [reverse cur]
  | a :: s' =>
      match skip with
      | S k => split_from sep s' cur k
      | O =>
          if HasPrefix s sep
          then reverse cur :: split_from sep s' [] (length sep - 1)
          else split_from sep s' (a :: cur) 0
      end
  end.

(** [strings.Split(s, sep)] for a non-empty [sep]. The result always has
    at least one element. *)
Definition Split (s sep : text) : list text :=
  split_from sep s [] 0.

End strings.

(** ** Package [regexp]

  The two patterns of the parser use literals, character classes,
  repetition of a character class (greedy or not), concatenation,
  alternation, an optional group and capture groups.  Go's matcher returns,
  among the matches that start leftmost, the one a backtracking search
  finds first; [runs] lists the ways a pattern can match a prefix of the
  input in exactly that order of preference. *)

Module regexp.

Inductive regex : Type :=
| Lit (w : text)
| Class (p : ascii -> bool)
| Rep (greedy : bool) (least : nat) (p : ascii -> bool)
| Cat (r1 r2 : regex)
| Alt (r1 r2 : regex)
| Opt (r : regex)
| Group (i : nat) (r : regex).

(** Captured text by group number; a group that took no part in the match
    has no entry. *)
Abbreviation caps := (gmap nat text).

(** [s] without the prefix [w], when [w] is a prefix. *)
Fixpoint strip (w s : text) {struct w} : option text :=
  match w, s with
  | [], _ => Some s
  | _ :: _, [] => None
  | p :: w', a :: s' => if Ascii.eqb p a then strip w' s' else None
  end.

(** The inputs left after reading 0, 1, 2, ... bytes of class [p]. *)
Fixpoint spans (p : ascii -> bool) (s : text) : list text :=
  s :: match s with
       | a :: s' => if p a then spans p s' else []
       | [] => []
       end.

(** What was read between the input [s] and its suffix [s']. *)
Definition consumed (s s' : text) : text :=
  take (length s - length s') s.

Fixpoint runs (r : regex) (s : text) (c : caps) : list (text * caps) :=
  match r with
  | Lit w =>
      match strip w s with
      | Some s' => [(s', c)]
      | None => []
      end
  | Class p =>
      match s with
      | a :: s' => if p a then [(s', c)] else []
      | [] => []
      end
  | Rep greedy least p =>
      let ends := drop least (spans p s) in
      (fun s' => (s', c)) <$> (if greedy then reverse ends else ends)
  | Cat r1 r2 => runs r1 s c ≫= (fun sc => runs r2 sc.1 sc.2)
  | Alt r1 r2 => runs r1 s c ++ runs r2 s c
  | Opt r => runs r s c ++ [(s, c)]
  | Group i r =>
      (fun sc => (sc.1, <[i := consumed s sc.1]> sc.2)) <$> runs r s c
  end.

(** [Regexp.NumSubexp] *)
Fixpoint NumSubexp (r : regex) : nat :=
  match r with
  | Lit _ | Class _ | Rep _ _ _ => 0
  | Cat r1 r2 | Alt r1 r2 => NumSubexp r1 + NumSubexp r2
  | Opt r => NumSubexp r
  | Group _ r => S (NumSubexp r)
  end.

(** The numbers of the groups of a pattern. *)
Fixpoint groups (r : regex) : list nat :=
  match r with
  | Lit _ | Class _ | Rep _ _ _ => []
  | Cat r1 r2 | Alt r1 r2 => groups r1 ++ groups r2
  | Opt r => groups r
  | Group i r => i :: groups r
  end.

(** One element of the result of [FindAllSubmatch]: the whole match, then
    the text of each group; [None] is Go's nil slice of a group that did
    not take part. *)
Definition submatch : Type := list (option text).

Definition pad (re : regex) (s s' : text) (c : caps) : submatch :=
  Some (consumed s s') :: ((fun i => c !! i) <$> seq 1 (NumSubexp re)).

(** The preferred match that starts at the head of [s]. *)
Definition match_here (re : regex) (s : text) : option (submatch * text) :=
  match runs re s ∅ with
  | (s', c) :: _ => Some (pad re s s' c, s')
  | [] => None
  end.

(** The leftmost match in [s]; with it, the input at its start and the
    input after its end. *)
Fixpoint search (re : regex) (s : text) : option (submatch * text * text) :=
  match match_here re s with
  | Some (m, s') => Some (m, s, s')
  | None =>
      match s with
      | [] => None
      | _ :: t => search re t
      end
  end.

(** The loop of [FindAllSubmatch].  The search resumes where the last match
    ended; after an empty match it resumes one place further, and an empty
    match right at the end of the match before it is not delivered.  [prev]
    is the length of the input that was left at the end of the last match. *)
Fixpoint find_all (fuel : nat) (re : regex) (s : text) (prev : option nat)
  : list submatch :=
  match fuel with
  | O => []
  | S fuel' =>
      match search re s with
      | None => []
      | Some (m, s0, s') =>
          if length s' <? length s0
          then m :: find_all fuel' re s' (Some (length s'))
          else
            let rest :=
              match s' with
              | [] => []
              | _ :: t => find_all fuel' re t (Some (length s'))
              end in
            if decide (prev = Some (length s0)) then rest else m :: rest
      end
  end.

(** [re.FindAllSubmatch(b, -1)] *)
Definition FindAllSubmatch (re : regex) (b : text) : list submatch :=
  find_all (S (length b)) re b None.

End regexp.

(** ** Package [gen/types] *)

Module types.

(** Modelled from the spec: package [gen/types] is not among the sources.
    [Flag] is an integer type; its zero value names no flag and the three
    constants the parser uses are positive and distinct.  [FlagNone] stands
    for the zero value of a declared and never assigned [Flag]. *)
Inductive Flag : Type :=
| FlagNone
| FlagReadOnly
| FlagReadWrite
| FlagExperimental.

#[global] Instance Flag_eq_dec : EqDecision Flag.
Proof. solve_decision. Defined.

(** [flag > 0] *)
Definition positive_flag (f : Flag) : bool :=
  match f with
  | FlagNone => false
  | _ => true
  end.

(** Modelled from the spec: the fields of [types.Property] that the parser
    assigns.  [Type_] is the Go field [Type]. *)
Record Property : Type := mkProperty {
  Type_ : text;
  Name : text;
  Flags : list Flag;
  Docs : text
}.

(** The value that [new(types.Property)] points to. *)
Definition zero_Property : Property := mkProperty [] [] [] [].

End types.

(** ** Panics

    Indexing a slice out of range and dereferencing a nil pointer abort the
    program; [Panic] records that, [Done] is a normal return. *)

Inductive outcome (A : Type) : Type :=
| Panic
| Done (a : A).

Arguments Panic {A}.
Arguments Done {A} a.

#[global] Instance outcome_bind : MBind outcome :=
  fun A B f m => match m with Panic => Panic | Done a => f a end.

(** [l[i]] *)
Definition index {A : Type} (l : list A) (i : nat) : outcome A :=
  match l !! i with
  | Some a => Done a
  | None => Panic
  end.

(** ** Package [gen/parser]: [property.go] *)

Module parser.
Import strings regexp types.

(** Character classes of the patterns. *)
Definition blank (a : ascii) : bool := Ascii.eqb a SP || Ascii.eqb a TAB.
Definition dot (a : ascii) : bool := negb (Ascii.eqb a LF).
Definition dot_s (_ : ascii) : bool := true.
Definition upper (a : ascii) : bool :=
  (65 <=? nat_of_ascii a) && (nat_of_ascii a <=? 90).
Definition not_rbracket (a : ascii) : bool := negb (Ascii.eqb a "]"%char).

(** [(bool|boolean|byte|string|int16|uint16|uint16_t|uint32|dict|object|array\{.*?)] *)
Definition type_keyword : regex :=
  Alt (Lit (T "bool"))
 (Alt (Lit (T "boolean"))
 (Alt (Lit (T "byte"))
 (Alt (Lit (T "string"))
 (Alt (Lit (T "int16"))
 (Alt (Lit (T "uint16"))
 (Alt (Lit (T "uint16_t"))
 (Alt (Lit (T "uint32"))
 (Alt (Lit (T "dict"))
 (Alt (Lit (T "object"))
      (Cat (Lit (T "array{")) (Rep false 0 dot))))))))))).

(** [propBaseRegexp]: the type keyword, a space, and [([A-Z].+?)]. *)
Definition propBaseRegexp : regex :=
  Cat (Group 1 type_keyword)
 (Cat (Lit (T " "))
      (Group 2 (Cat (Class upper) (Rep false 1 dot)))).

(** The optional third group of the first pattern: a space, [\[],
    [[^\]]*], [\]] and [.*] , in parentheses and followed by [?]. *)
Definition flag_group : regex :=
  Opt (Group 3 (Cat (Lit (T " ["))
               (Cat (Rep true 0 not_rbracket)
               (Cat (Lit (T "]")) (Rep true 0 dot))))).

(** The first pattern of [Parse]: [[ \t]*?], [propBaseRegexp], the optional
    group above, [\n] and [((?s).+)]. *)
Definition re_strict : regex :=
  Cat (Rep false 0 blank)
 (Cat propBaseRegexp
 (Cat flag_group
 (Cat (Lit [LF]) (Group 4 (Rep true 1 dot_s))))).

(** The second pattern of [Parse]:
    [[ \t]*?] + propBaseRegexp + [\n((?s).+)] *)
Definition re_loose : regex :=
  Cat (Rep false 0 blank)
 (Cat propBaseRegexp
 (Cat (Lit [LF]) (Group 3 (Rep true 1 dot_s)))).

(** The heap of [types.Property] objects, by address. *)
Abbreviation loc := (nat).
Abbreviation heap := (gmap nat Property).

Record PropertyParser : Type := mkPropertyParser {
  model : loc;
  debug : bool
}.

(** [NewPropertyParser]: [new(types.Property)] takes an unused address and
    stores the zero value there. *)
Definition NewPropertyParser (debug : bool) (h : heap)
  : PropertyParser * heap :=
  let l := fresh (dom h) in
  (mkPropertyParser l debug, <[l := zero_Property]> h).

(** [string(b)] of a submatch entry; the nil slice gives the empty string. *)
Definition string_of (b : option text) : text := default [] b.

(** The condition of the first [if]: [len(matches2) == 0 ||
    len(matches2[0]) == 1]. *)
Definition retry (matches2 : list submatch) : bool :=
  match matches2 with
  | [] => true
  | m :: _ => length m =? 1
  end.

(** Lines 56 to 58: a token that contains "]" is cut there. *)
Definition cut_bracket (f : text) : text :=
  if Contains f (T "]")
  then match Split f (T "]") with f0 :: _ => f0 | [] => f end
  else f.

(** Lines 60 to 74: the [switch]; [flag] keeps its zero value when no case
    applies. *)
Definition flag_switch (f : text) : Flag :=
  if decide (f = T "readonly") then FlagReadOnly
  else if decide (f = T "readwrite") then FlagReadWrite
  else if decide (f = T "experimental") then FlagExperimental
  else FlagNone.

(** One round of the loop over [flagList], up to the [switch]. *)
Definition flag_of_token (f : text) : Flag :=
  flag_switch (cut_bracket f).

(** The loop over [flagList], appending to [flags]. *)
Fixpoint collect_flags (flagList : list text) (flags : list Flag)
  : list Flag :=
  match flagList with
  | [] => flags
  | f :: rest =>
      let flag := flag_of_token f in
      collect_flags rest
        (if positive_flag flag then flags ++ [flag] else flags)
  end.

(** Lines 49 to 80: the flags of the bracketed group. *)
Definition parse_flags (flagListRaw : text) : list Flag :=
  collect_flags (Split (Trim flagListRaw (T "[] ")) (T ",")) [].

(** Lines 82 to 84. *)
Definition parse_docs (raw_docs : text) : text :=
  Trim (Replace raw_docs [SP; TAB; LF] []) [SP; TAB; LF].

(** Lines 86 to 93: the name and the docs, from the name group and the
    trimmed docs. *)
Definition parse_name (name docs : text) : text * text :=
  let '(name, docs) :=
    if Contains name (T "optional")
    then (Replace name (T " (optional)") [], T "(optional) " ++ docs)
    else (name, docs) in
  (Replace name [SP; TAB; LF] [], docs).

(** The error value of [errors.New]. *)
Definition error : Type := text.

(** [*property], for the assignments of lines 95 to 98; a pointer to no
    object cannot be written through. *)
Definition deref (h : heap) (l : loc) : outcome Property :=
  match h !! l with
  | Some p => Done p
  | None => Panic
  end.

(** Lines 49 to 98: the field values that the first match gives. *)
Definition property_of (m0 : submatch) : outcome Property :=
  g3 ← index m0 3;
  let flags := parse_flags (string_of g3) in
  g4 ← index m0 4;
  let docs := parse_docs (string_of g4) in
  g2 ← index m0 2;
  let '(name, docs) := parse_name (string_of g2) docs in
  g1 ← index m0 1;
  Done (mkProperty (string_of g1) name flags docs).

(** The same field values, from the four groups. *)
Definition property_from (g1 g2 g3 g4 : option text) : Property :=
  let nd := parse_name (string_of g2) (parse_docs (string_of g4)) in
  mkProperty (string_of g1) nd.1 (parse_flags (string_of g3)) nd.2.

(** [(g *PropertyParser) Parse(raw)]: the heap after the call, the pointer
    and the error returned.  Logging is left out. *)
Definition Parse (g : PropertyParser) (raw : text) (h : heap)
  : outcome (heap * (loc * option error)) :=
  let property := model g in
  let matches2 := FindAllSubmatch re_strict raw in
  let matches2 :=
    if retry matches2 then FindAllSubmatch re_loose raw else matches2 in
  if length matches2 =? 0
  then Done (h, (property, Some (T "No property found")))
  else
    m0 ← index matches2 0;
    p ← property_of m0;
    _ ← deref h property;
    Done (<[property := p]> h, (property, None)).

(** The first match of the first pattern, when there is one. *)
Definition strict_match (raw : text) : option submatch :=
  head (FindAllSubmatch re_strict raw).

(** Whether a pattern matches somewhere in the block. *)
Definition matches (re : regex) (raw : text) : Prop :=
  FindAllSubmatch re raw <> [].




(** White space: tab, line feed, vertical tab, form feed, carriage return
    and space. *)
Definition is_space (a : ascii) : bool :=
  ((9 <=? nat_of_ascii a) && (nat_of_ascii a <=? 13)) || Ascii.eqb a SP.

(** Neither the first nor the last byte is in the cutset. *)
Definition trimmed (cutset s : text) : Prop :=
  (forall a, head s = Some a -> in_cutset cutset a = false) /\
  (forall a, last s = Some a -> in_cutset cutset a = false).

(** What a block leaves in the property of the parser, when the first
    pattern matches it. *)
Definition parsed (raw : text) : option Property :=
  match strict_match raw with
  | Some m => match property_of m with Done p => Some p | Panic => None end
  | None => None
  end.

(** Calls of [Parse] on one parser, one block after the other: the heap
    after the last call and the results, in order. *)
Fixpoint ParseAll (g : PropertyParser) (raws : list text) (h : heap)
  : outcome (heap * list (loc * option error)) :=
  match raws with
  | [] => Done (h, [])
  | raw :: rest =>
      r ← Parse g raw h;
      rs ← ParseAll g rest r.1;
      Done (rs.1, r.2 :: rs.2)
  end.

(** The field values of the last block of a sequence that the first pattern
    matches, [init] when there is none. *)
Fixpoint last_parsed (init : Property) (raws : list text) : Property :=
  match raws with
  | [] => init
  | raw :: rest => last_parsed (default init (parsed raw)) rest
  end.

End parser.

(** ** Package [dbus]: the values that cross the property-map boundary *)

Module dbus.

#[local] Set Warnings "-register-all".

Inductive Variant : Type :=
| VBool (b : bool)
| VByte (n : Z)
| VUint16 (n : Z)
| VUint32 (n : Z)
| VString (s : text)
| VBytes (b : list Z)
| VObjectPath (p : text)
| VDict (d : list (text * Variant)).

End dbus.

(** ** The property marshaller *)

Module props.
Import dbus.

(** Modelled from the spec: packages [props] and [util], which hold
    [props.ToMap] and [util.MapToStruct], are not among the sources.  The
    declared type of a field is one of the kinds of the closed vocabulary of
    values (section 3 of the specification). *)
Inductive Kind : Type :=
| KBool | KByte | KUint16 | KUint32 | KString | KBytes | KObjectPath | KDict.

#[global] Instance Kind_eq_dec : EqDecision Kind.
Proof. solve_decision. Defined.

Definition kind_of (v : Variant) : Kind :=
  match v with
  | VBool _ => KBool
  | VByte _ => KByte
  | VUint16 _ => KUint16
  | VUint32 _ => KUint32
  | VString _ => KString
  | VBytes _ => KBytes
  | VObjectPath _ => KObjectPath
  | VDict _ => KDict
  end.

(** The zero or empty value of a kind. *)
Definition zero (k : Kind) : Variant :=
  match k with
  | KBool => VBool false
  | KByte => VByte 0
  | KUint16 => VUint16 0
  | KUint32 => VUint32 0
  | KString => VString []
  | KBytes => VBytes []
  | KObjectPath => VObjectPath []
  | KDict => VDict []
  end.

(** Whether a value is the zero or empty value of its type. *)
Definition is_zero (v : Variant) : bool :=
  match v with
  | VBool b => negb b
  | VByte n | VUint16 n | VUint32 n => (n =? 0)%Z
  | VString s | VObjectPath s => bool_decide (s = [])
  | VBytes b => bool_decide (b = [])
  | VDict d => match d with [] => true | _ => false end
  end.

(** Modelled from the spec: the directive set of a field. *)
Record FieldDescriptor : Type := mkFieldDescriptor {
  Skip : bool;
  SkipIfFlag : option text;
  OmitIfEmpty : bool;
  Writable : bool
}.

(** A field of a record type, in declaration order, and a record: the
    current value of each field, by field name. *)
Record Field : Type := mkField {
  field_name : text;
  field_kind : Kind;
  field_desc : FieldDescriptor
}.

Abbreviation record := (gmap text Variant).
Abbreviation PropertyMapping := (gmap text Variant).

(** Modelled from the spec: when [ToMap] leaves a field out. *)
Definition excluded (r : record) (f : Field) (v : Variant) : bool :=
  Skip (field_desc f)
  || match SkipIfFlag (field_desc f) with
     | Some sibling =>
         match r !! sibling with Some (VBool true) => true | _ => false end
     | None => false
     end
  || (OmitIfEmpty (field_desc f) && is_zero v).

(** Modelled from the spec: [ToMap] goes through the fields in declaration
    order and emits those not left out, keyed by field name. *)
Definition ToMap (ty : list Field) (r : record) : PropertyMapping :=
  foldl (fun m f =>
           match r !! field_name f with
           | Some v => if excluded r f v then m else <[field_name f := v]> m
           | None => m
           end)
        ∅ ty.

(** The integer behind a value of an integer kind. *)
Definition integer_of (v : Variant) : option Z :=
  match v with
  | VByte n | VUint16 n | VUint32 n => Some n
  | _ => None
  end.

(** Modelled from the spec: conversion of a value to the declared type of a
    field; integers convert to another width by wrapping, anything else has
    to be of the declared kind already. *)
Definition convert (k : Kind) (v : Variant) : option Variant :=
  if decide (kind_of v = k) then Some v
  else match k, integer_of v with
       | KByte, Some n => Some (VByte (n mod 2 ^ 8))
       | KUint16, Some n => Some (VUint16 (n mod 2 ^ 16))
       | KUint32, Some n => Some (VUint32 (n mod 2 ^ 32))
       | _, _ => None
       end.

(** The [TypeMismatch] failure: the field and the kind of the value. *)
Inductive MarshalError : Type :=
| TypeMismatch (field : text) (actual : Kind).

Definition find_field (ty : list Field) (name : text) : option Field :=
  find (fun f => bool_decide (field_name f = name)) ty.

(** A fresh record: every field at its zero value. *)
Definition zero_record (ty : list Field) : record :=
  list_to_map ((fun f => (field_name f, zero (field_kind f))) <$> ty).

(** One entry of the mapping assigned to the record being filled. *)
Definition assign (ty : list Field) (name : text) (v : Variant)
  (acc : record * option MarshalError) : record * option MarshalError :=
  match acc with
  | (r, Some e) => (r, Some e)
  | (r, None) =>
      match find_field ty name with
      | None => (r, None)
      | Some f =>
          match convert (field_kind f) v with
          | Some v' => (<[name := v']> r, None)
          | None => (r, Some (TypeMismatch name (kind_of v)))
          end
      end
  end.

(** Modelled from the spec: [util.MapToStruct(s, props)] assigns every entry
    whose key is a field name and stops at the first value that does not
    convert; the record comes back as far as it was filled. *)
Definition MapToStruct (ty : list Field) (s : record) (m : PropertyMapping)
  : record * option MarshalError :=
  map_fold (assign ty) (s, None) m.

(** A record of the struct type [ty]: it has a value for the fields of the
    type and for nothing else, each of the declared kind of its field. *)
Definition instance_of (ty : list Field) (r : record) : Prop :=
  dom r = list_to_set (field_name <$> ty) /\
  Forall (fun f => kind_of <$> r !! field_name f = Some (field_kind f)) ty.

#[global] Instance instance_of_dec ty r : Decision (instance_of ty r).
Proof. unfold instance_of. apply _. Defined.

(** Whether [ToMap] leaves a field of a record out. *)
Definition left_out (r : record) (f : Field) : bool :=
  match r !! field_name f with
  | Some v => excluded r f v
  | None => true
  end.

End props.

(** ** Package [bluez/profile/media]: [gen_MediaTransport1.go] *)

Module media.
Import dbus.

Definition error : Type := text.

(** The remote side as the client sees it: [a.client.GetProperty(name)]
    answers with a variant and an error. *)
Record Client : Type := mkClient {
  client_GetProperty : text -> Variant * option error
}.

Record MediaTransport1 : Type := mkMediaTransport1 {
  client : Client
}.

(** [GetProperty] *)
Definition GetProperty (a : MediaTransport1) (name : text)
  : Variant * option error :=
  client_GetProperty (client a) name.

(** [GetDevice]; the type assertion [v.Value().(dbus.ObjectPath)] panics on
    a value of another type. *)
Definition GetDevice (a : MediaTransport1) : outcome (text * option error) :=
  let '(v, err) := GetProperty a (T "Device") in
  match err with
  | Some e => Done ([], Some e)
  | None => match v with VObjectPath p => Done (p, None) | _ => Panic end
  end.

(** [GetUUID] *)
Definition GetUUID (a : MediaTransport1) : outcome (text * option error) :=
  let '(v, err) := GetProperty a (T "UUID") in
  match err with
  | Some e => Done ([], Some e)
  | None => match v with VString s => Done (s, None) | _ => Panic end
  end.

(** [GetCodec] *)
Definition GetCodec (a : MediaTransport1) : outcome (Z * option error) :=
  let '(v, err) := GetProperty a (T "Codec") in
  match err with
  | Some e => Done (0%Z, Some e)
  | None => match v with VByte n => Done (n, None) | _ => Panic end
  end.

(** [GetConfiguration] *)
Definition GetConfiguration (a : MediaTransport1)
  : outcome (list Z * option error) :=
  let '(v, err) := GetProperty a (T "Configuration") in
  match err with
  | Some e => Done ([], Some e)
  | None => match v with VBytes b => Done (b, None) | _ => Panic end
  end.

(** [GetState] *)
Definition GetState (a : MediaTransport1) : outcome (text * option error) :=
  let '(v, err) := GetProperty a (T "State") in
  match err with
  | Some e => Done ([], Some e)
  | None => match v with VString s => Done (s, None) | _ => Panic end
  end.

(** [GetDelay] *)
Definition GetDelay (a : MediaTransport1) : outcome (Z * option error) :=
  let '(v, err) := GetProperty a (T "Delay") in
  match err with
  | Some e => Done (0%Z, Some e)
  | None => match v with VUint16 n => Done (n, None) | _ => Panic end
  end.

(** [GetVolume] *)
Definition GetVolume (a : MediaTransport1) : outcome (Z * option error) :=
  let '(v, err) := GetProperty a (T "Volume") in
  match err with
  | Some e => Done (0%Z, Some e)
  | None => match v with VUint16 n => Done (n, None) | _ => Panic end
  end.

(** The exported fields of [MediaTransport1Properties], none of them
    tagged; the struct has one more field, the unexported [lock], tagged
    [dbus:"ignore"]. *)
Definition plain : props.FieldDescriptor :=
  props.mkFieldDescriptor false None false false.

Definition MediaTransport1Properties_exported : list props.Field :=
  [ props.mkField (T "Device") props.KObjectPath plain;
    props.mkField (T "UUID") props.KString plain;
    props.mkField (T "Codec") props.KByte plain;
    props.mkField (T "Configuration") props.KBytes plain;
    props.mkField (T "State") props.KString plain;
    props.mkField (T "Delay") props.KUint16 plain;
    props.mkField (T "Volume") props.KUint16 plain ].

(** [dbus.MakeVariant]: the values of a property map are variants already. *)
Definition MakeVariant (v : Variant) : Variant := v.

Section Properties.
(** The three conversions are generated alike for every interface; [ty] is
    the properties struct of the receiver. *)
Variable ty : list props.Field.

(** [ToMap] *)
Definition ToMap (a : props.record)
  : props.PropertyMapping * option error :=
  (props.ToMap ty a, None).

(** [FromDBusMap]: a new record, filled by [util.MapToStruct], returned
    with the error. *)
Definition FromDBusMap (a : props.record) (m : props.PropertyMapping)
  : props.record * option props.MarshalError :=
  let s := props.zero_record ty in
  props.MapToStruct ty s m.

(** [FromMap] *)
Definition FromMap (a : props.record) (m : props.PropertyMapping)
  : props.record * option props.MarshalError :=
  let props1 := MakeVariant <$> m in
  FromDBusMap a props1.

End Properties.

End media.

(** ** The template code generator *)

Module generator.
Import types.

(** Modelled from the spec: the models of section 3. *)
Record MethodModel : Type := mkMethodModel {
  method_name : text;
  OrderedArguments : list (text * text);
  OrderedReturns : list text;
  method_docs : text;
  DeclaredErrors : list text
}.

Record SignalModel : Type := mkSignalModel {
  signal_name : text;
  signal_arguments : list (text * text);
  signal_docs : text;
  signal_errors : list text
}.

Record InterfaceModel : Type := mkInterfaceModel {
  interface_name : text;
  Properties : gmap text Property;
  Methods : list MethodModel;
  Signals : list SignalModel;
  interface_docs : text
}.

(** The destination: file contents by path. *)
Abbreviation tree := (gmap text text).

Inductive Result : Type :=
| Generated
| RenderingFailed (interface : text).

Section Generate.
(** The templates are not among the sources: [render] is the client source
    of an interface, or no text when rendering fails, and [artifact_path]
    the path of its file, a function of the destination root and the
    interface name. *)
Variable render : InterfaceModel -> option text.
Variable artifact_path : text -> text -> text.

(** Modelled from the spec: package [gen/generator] is not among the
    sources.  [Generate] emits one artifact per interface model, in order;
    a rendering failure aborts the rest of the batch and leaves the files
    already written in place. *)
Fixpoint Generate (models : list InterfaceModel) (destinationRoot : text)
  (fs : tree) : tree * Result :=
  match models with
  | [] => (fs, Generated)
  | m :: rest =>
      match render m with
      | None => (fs, RenderingFailed (interface_name m))
      | Some source =>
          Generate rest destinationRoot
            (<[artifact_path destinationRoot (interface_name m) := source]> fs)
      end
  end.

End Generate.

End generator.

(** ** Sample blocks *)

Module samples.
Import types parser.

(** A parser as [NewPropertyParser] makes it, and the heap it lives in. *)
Definition parser0 : PropertyParser := (NewPropertyParser false ∅).1.
Definition heap0 : heap := (NewPropertyParser false ∅).2.

(** [string Address [readonly]], with docs. *)
Definition block_readonly : text :=
  [TAB; TAB] ++ T "string Address [readonly]" ++ [LF; TAB; TAB; TAB]
  ++ T "The Bluetooth device address." ++ [LF].

(** A flag list that names both access flags. *)
Definition block_both : text :=
  T "string Foo [readonly,readwrite]" ++ [LF] ++ T "Docs".

(** The line quoted in [property.go], with docs. *)
Definition block_handle : text :=
  [TAB; TAB] ++ T "int16 Handle (optional) [read-write, experimental] (Server Only)"
  ++ [LF; TAB; TAB; TAB] ++ T "Handle of the attribute." ++ [LF].

(** A name of two words marked optional, with docs of one space. *)
Definition block_words : text :=
  T "string Foo Bar (optional)" ++ [LF; SP].

(** A block without a bracketed flag list. *)
Definition block_plain : text :=
  T "uint16 Version" ++ [LF; TAB] ++ T "Version of the profile." ++ [LF].

(** Text that is no property block. *)
Definition block_none : text := T "Properties" ++ [LF].

(** Values for the exported fields of [MediaTransport1Properties], none
    of them empty. *)
Definition transport_record : props.record :=
  list_to_map
    [ (T "Device", dbus.VObjectPath (T "/org/bluez/hci0/dev_00_11_22_33_44_55"));
      (T "UUID", dbus.VString (T "0000110a-0000-1000-8000-00805f9b34fb"));
      (T "Codec", dbus.VByte 2);
      (T "Configuration", dbus.VBytes [33; 21; 2; 53]%Z);
      (T "State", dbus.VString (T "idle"));
      (T "Delay", dbus.VUint16 150);
      (T "Volume", dbus.VUint16 127) ].

(** The record of [TestParseTag] in [properties_service_test.go], as far as
    its fields have a kind of the vocabulary: [ToOmit] tagged
    [omitEmpty,writable] and left empty, [Ignored] tagged [ignore],
    [Avail] without a tag. *)
Definition test_fields : list props.Field :=
  [ props.mkField (T "ToOmit") props.KDict
      (props.mkFieldDescriptor false None true true);
    props.mkField (T "Ignored") props.KString
      (props.mkFieldDescriptor true None false false);
    props.mkField (T "Avail") props.KString
      (props.mkFieldDescriptor false None false false) ].

Definition test_record : props.record :=
  list_to_map
    [ (T "ToOmit", dbus.VDict []);
      (T "Ignored", dbus.VString (T "foo"));
      (T "Avail", dbus.VString (T "foo")) ].

(** A remote side on which every [GetProperty] fails. *)
Definition failing_client : media.Client :=
  media.mkClient
    (fun _ => (dbus.VBool false, Some (T "org.bluez.Error.Failed"))).

End samples.

(** ** The shape of a property header *)

Module shapes.
Import strings regexp types parser.

(** The type keywords of [propBaseRegexp], but for the array types. *)
Definition type_keywords : list text :=
  [T "bool"; T "boolean"; T "byte"; T "string"; T "int16"; T "uint16";
   T "uint16_t"; T "uint32"; T "dict"; T "object"].

(** A type as the first group reads it: a keyword, or [array{] and what
    follows on the line. *)
Definition type_text (t : text) : Prop :=
  t ∈ type_keywords \/ exists u, t = T "array{" ++ u /\ LF ∉ u.

(** A name as the second group reads it: a capital letter and at least one
    more byte of the line. *)
Definition name_text (n : text) : Prop :=
  exists a w, n = a :: w /\ upper a = true /\ w <> [] /\ LF ∉ w.

(** A bracketed group as the third group reads it, when it takes part. *)
Definition flags_text (f : text) : Prop :=
  exists u v, f = T " [" ++ u ++ T "]" ++ v /\ ("]"%char ∉ u) /\ LF ∉ v.

(** A repetition of the class [p] cannot read on at [s]: [s] is empty or
    starts outside the class. *)
Definition stops (p : ascii -> bool) (s : text) : Prop :=
  match s with [] => True | a :: _ => p a = false end.

(** What follows the name group in the first pattern of [Parse]. *)
Definition header_end : regex :=
  Cat flag_group (Cat (Lit [LF]) (Group 4 (Rep true 1 dot_s))).

(** [s] does not start with an opening bracket. *)
Definition no_bracket (s : text) : Prop := forall s', s <> "["%char :: s'.

End shapes.

(** ** The subscriptions of a generated client

    [GetPropertiesSignal], [unregisterPropertiesSignal], [Close] and
    [GetObjectManagerSignal] are generated alike for every interface
    ([gen_MediaTransport1.go] and its siblings).  They read and write the
    channel fields of the client struct and act on the outside: the model
    threads these fields and lists the actions in the order the code
    performs them.  What the outside answers to a call is an argument, used
    only if the call is made.  A send on a channel is listed as an action;
    that it waits for a receiver is not modelled. *)

Module subscriptions.

(** Channels and object managers, by identity. *)
Abbreviation chan := (nat).
Abbreviation manager := (nat).

Definition error : Type := text.

Inductive action : Type :=
| ClientRegister
| SendNil (ch : chan)
| ClientDisconnect
| GetObjectManager
| ManagerRegister (om : option manager)
| ManagerUnregister (om : option manager) (ch : chan).

#[global] Instance action_eq_dec : EqDecision action.
Proof. solve_decision. Defined.

(** The channel fields of the client struct; [None] is Go's nil. *)
Record Subscriber : Type := mkSubscriber {
  propertiesSignal : option chan;
  objectManagerSignal : option chan;
  objectManager : option manager;
  watchPropertiesChannel : option chan
}.

(** [GetPropertiesSignal]; [answer] is what
    [a.client.Register(a.client.Config.Path, bluez.PropertiesInterface)]
    returns. *)
Definition GetPropertiesSignal (answer : option chan * option error)
  (a : Subscriber) : Subscriber * list action * (option chan * option error) :=
  match propertiesSignal a with
  | None =>
      let '(s, err) := answer in
      match err with
      | Some e => (a, [ClientRegister], (None, Some e))
      | None =>
          (mkSubscriber s (objectManagerSignal a) (objectManager a)
             (watchPropertiesChannel a),
           [ClientRegister], (s, None))
      end
  | Some s => (a, [], (Some s, None))
  end.

(** [unregisterPropertiesSignal] *)
Definition unregisterPropertiesSignal (a : Subscriber)
  : Subscriber * list action :=
  match propertiesSignal a with
  | Some s =>
      (mkSubscriber None (objectManagerSignal a) (objectManager a)
         (watchPropertiesChannel a),
       [SendNil s])
  | None => (a, [])
  end.

(** [Close] *)
Definition Close (a : Subscriber) : Subscriber * list action :=
  let '(a, sent) := unregisterPropertiesSignal a in
  (a, sent ++ [ClientDisconnect]).

(** The closure [cancel] that [GetObjectManagerSignal] returns; it reads
    the fields of the client when it is called. *)
Definition cancel (a : Subscriber) : Subscriber * list action :=
  match objectManagerSignal a with
  | None => (a, [])
  | Some s =>
      (mkSubscriber (propertiesSignal a) None (objectManager a)
         (watchPropertiesChannel a),
       [SendNil s; ManagerUnregister (objectManager a) s])
  end.

(** [GetObjectManagerSignal]: the channel and the error returned; the
    closure returned beside a nil error is [cancel].  [found] is what
    [bluez.GetObjectManager()] returns and [registered] what
    [a.objectManager.Register()] returns. *)
Definition GetObjectManagerSignal (found : option manager * option error)
  (registered : option chan * option error) (a : Subscriber)
  : Subscriber * list action * (option chan * option error) :=
  match objectManagerSignal a with
  | Some s => (a, [], (Some s, None))
  | None =>
      let lookup_manager :=
        match objectManager a with
        | Some om => inl (a, [])
        | None =>
            let '(om, err) := found in
            match err with
            | Some e => inr e
            | None =>
                inl (mkSubscriber (propertiesSignal a) (objectManagerSignal a)
                       om (watchPropertiesChannel a),
                     [GetObjectManager])
            end
        end in
      match lookup_manager with
      | inr e => (a, [GetObjectManager], (None, Some e))
      | inl (a, done) =>
          let '(s, err) := registered in
          let done := done ++ [ManagerRegister (objectManager a)] in
          match err with
          | Some e => (a, done, (None, Some e))
          | None =>
              (mkSubscriber (propertiesSignal a) s (objectManager a)
                 (watchPropertiesChannel a),
               done, (s, None))
          end
      end
  end.

End subscriptions.

(** ** The property setters of [gen_MediaTransport1.go] *)

Module setters.
Import dbus.

Section Setters.
(** The remote side: its state, and what [a.client.SetProperty(name,
    value)] does to it and returns. *)
Variable S : Type.
Variable client_SetProperty : text -> Variant -> S -> S * option media.error.

(** [SetProperty] *)
Definition SetProperty (name : text) (value : Variant) (st : S)
  : S * option media.error :=
  client_SetProperty name value st.

(** [SetDelay]; [v] is a [uint16]. *)
Definition SetDelay (v : Z) (st : S) : S * option media.error :=
  SetProperty (T "Delay") (VUint16 v) st.

(** [SetVolume] *)
Definition SetVolume (v : Z) (st : S) : S * option media.error :=
  SetProperty (T "Volume") (VUint16 v) st.

End Setters.

(** A remote side that keeps its properties in a map. *)
Definition store_set (name : text) (value : Variant) (st : gmap text Variant)
  : gmap text Variant * option media.error :=
  (<[name := value]> st, None).

Definition store_get (st : gmap text Variant) (name : text)
  : Variant * option media.error :=
  match st !! name with
  | Some v => (v, None)
  | None => (VBool false, Some (T "org.freedesktop.DBus.Error.InvalidArgs"))
  end.

End setters.

(** ** Package [encoding/binary], as far as the sensor code calls it

    Go's standard library: [ReadVarint] on a [bytes.Buffer] and
    [LittleEndian.Uint16].  A byte is a [Z] from 0 to 255. *)

Module binary.

Inductive read_error : Type :=
| EOF
| ErrUnexpectedEOF
| errOverflow.

(** The loop of [ReadUvarint] on the bytes left in the buffer: [i] counts
    the bytes read, [s] is the shift and [x] the value so far, a [uint64]. *)
Fixpoint uvarint_from (buf : list Z) (i : nat) (s x : Z)
  : Z * option read_error :=
  if 10 <=? i then (x, Some errOverflow)
  else
    match buf with
    | [] => (x, Some (if 0 <? i then ErrUnexpectedEOF else EOF))
    | b :: buf' =>
        if (b <? 128)%Z
        then
          if (i =? 9) && (1 <? b)%Z then (x, Some errOverflow)
          else (Z.lor x (Z.shiftl b s mod 2 ^ 64), None)
        else
          uvarint_from buf' (S i) (s + 7)
            (Z.lor x (Z.shiftl (Z.land b 127) s mod 2 ^ 64))
    end.

(** [binary.ReadUvarint] on a [bytes.Buffer] that holds [buf]. *)
Definition ReadUvarint (buf : list Z) : Z * option read_error :=
  uvarint_from buf 0 0 0.

(** [binary.ReadVarint]: the zig-zag decoding of [ReadUvarint]. *)
Definition ReadVarint (buf : list Z) : Z * option read_error :=
  let '(ux, err) := ReadUvarint buf in
  let x := Z.shiftr ux 1 in
  (if Z.odd ux then Z.lnot x else x, err).

(** [binary.LittleEndian.Uint16(b)]; it reads [b[1]] first and panics on a
    slice of fewer than two bytes. *)
Definition Uint16 (b : list Z) : outcome Z :=
  b1 ← index b 1;
  b0 ← index b 0;
  Done (Z.lor b0 (Z.shiftl b1 8)).

End binary.

(** ** Package [sensortag]: the MPU sensor *)

Module sensortag.
Import dbus.

(** An error of the remote side, or one of [binary.ReadVarint]. *)
Inductive error : Type :=
| Remote (e : text)
| Decode (e : binary.read_error).

Section Mpu.
(** The state of the remote device.  A characteristic is seen through the
    four methods of [gatt.GattCharacteristic1] that the sensor calls; each
    gets the state of the device and returns the state after the call and
    its results. *)
Variable S : Type.

Record Characteristic : Type := mkCharacteristic {
  ReadValue : S -> S * (list Z * option text);
  WriteValue : list Z -> S -> S * option text;
  GetProperty : text -> S -> S * (Variant * option text);
  StopNotify : S -> S * option text
}.

Record MpuSensor : Type := mkMpuSensor {
  cfg : Characteristic;
  data : Characteristic;
  period : Characteristic
}.

(** [IsEnabled] *)
Definition IsEnabled (s : MpuSensor) (st : S) : S * (bool * option error) :=
  let '(st, (val, err)) := ReadValue (cfg s) st in
  match err with
  | Some e => (st, (false, Some (Remote e)))
  | None =>
      let '(enabled, err) := binary.ReadVarint val in
      match err with
      | Some e => (st, (false, Some (Decode e)))
      | None => (st, ((enabled =? 1)%Z, None))
      end
  end.

(** [Enable] *)
Definition Enable (s : MpuSensor) (st : S) : S * option error :=
  let '(st, (enabled, err)) := IsEnabled s st in
  match err with
  | Some e => (st, Some e)
  | None =>
      if enabled then (st, None)
      else
        let '(st, err) := WriteValue (cfg s) [127; 127]%Z st in
        match err with
        | Some e => (st, Some (Remote e))
        | None => (st, None)
        end
  end.

(** [Disable] *)
Definition Disable (s : MpuSensor) (st : S) : S * option error :=
  let '(st, (enabled, err)) := IsEnabled s st in
  match err with
  | Some e => (st, Some e)
  | None =>
      if negb enabled then (st, None)
      else
        let '(st, err) := WriteValue (cfg s) [0]%Z st in
        match err with
        | Some e => (st, Some (Remote e))
        | None => (st, None)
        end
  end.

(** [IsNotifying]; the type assertion [n.Value().(bool)] panics on a value
    that is no boolean. *)
Definition IsNotifying (s : MpuSensor) (st : S)
  : outcome (S * (bool * option error)) :=
  let '(st, (n, err)) := GetProperty (data s) (T "Notifying") st in
  match err with
  | Some e => Done (st, (false, Some (Remote e)))
  | None =>
      match n with
      | VBool b => Done (st, (b, None))
      | _ => Panic
      end
  end.

(** [calcTmpLocal] is not among the sources; [F] stands for [float64] and
    [zero] for its 0. *)
Variable F : Type.
Variable zero : F.
Variable calcTmpLocal : Z -> F.

(** [b[2:]]; slicing beyond the length panics. *)
Definition from_2 (b : list Z) : outcome (list Z) :=
  if 2 <=? length b then Done (drop 2 b) else Panic.

(** [Read] *)
Definition Read (s : MpuSensor) (st : S) : outcome (S * (F * option error)) :=
  let '(st, err) := Enable s st in
  match err with
  | Some e => Done (st, (zero, Some e))
  | None =>
      let '(st, (b, err)) := ReadValue (data s) st in
      match err with
      | Some e => Done (st, (zero, Some (Remote e)))
      | None =>
          rest ← from_2 b;
          amb ← binary.Uint16 rest;
          Done (st, (calcTmpLocal amb, None))
      end
  end.

(** The package variable [dataChannel], which [StopNotify] reads and never
    assigns, and the channels that were closed, beside the state of the
    device. *)
Record World : Type := mkWorld {
  device : S;
  dataChannel : option nat;
  closed : gset nat
}.

(** [close(ch)]; closing a closed channel panics. *)
Definition close (ch : nat) (w : World) : outcome World :=
  if decide (ch ∈ closed w) then Panic
  else Done (mkWorld (device w) (dataChannel w) ({[ch]} ∪ closed w)).

(** [StopNotify] *)
Definition MpuSensor_StopNotify (s : MpuSensor) (w : World)
  : outcome (World * option error) :=
  let '(st, err) := Disable s (device w) in
  let w := mkWorld st (dataChannel w) (closed w) in
  match err with
  | Some e => Done (w, Some e)
  | None =>
      w ← match dataChannel w with
          | Some ch => close ch w
          | None => Done w
          end;
      '(st, (n, err)) ← IsNotifying s (device w);
      let w := mkWorld st (dataChannel w) (closed w) in
      match err with
      | Some e => Done (w, Some e)
      | None =>
          if (n : bool)
          then
            let '(st, err) := StopNotify (data s) (device w) in
            Done (mkWorld st (dataChannel w) (closed w),
                  option_map Remote err)
          else Done (w, None)
      end
  end.

End Mpu.

(** A characteristic of a device that holds one value: a read returns what
    was written last. *)
Definition echo : Characteristic (list Z) :=
  mkCharacteristic (list Z)
    (fun st => (st, (st, None)))
    (fun v _ => (v, None))
    (fun _ st => (st, (VBool false, None)))
    (fun st => (st, None)).

End sensortag.

(** * Properties *)

Import strings regexp types parser.

(** ** Facts about [strings] *)

Section strings_facts.
Implicit Types s w cutset : text.

Lemma HasPrefix_app s w : HasPrefix (w ++ s) w = true.
Proof.
  induction w as [|a w IH]; simpl; [done|].
  by rewrite Ascii.eqb_refl.
Qed.

Lemma HasPrefix_inv s w : HasPrefix s w = true -> exists s', s = w ++ s'.
Proof.
  revert s; induction w as [|a w IH]; intros s; simpl.
  - by exists s.
  - destruct s as [|b s]; [done|].
    intros [Hab Hw]%andb_prop. apply Ascii.eqb_eq in Hab as ->.
    destruct (IH _ Hw) as [s' ->]. by exists s'.
Qed.

Lemma Contains_here s w : HasPrefix s w = true -> Contains s w = true.
Proof. destruct s; simpl; intros ->; done. Qed.

Lemma Contains_cons a s w : Contains s w = true -> Contains (a :: s) w = true.
Proof. simpl. intros ->. by rewrite orb_true_r. Qed.

Lemma Contains_suffix s s' w :
  s' `suffix_of` s -> Contains s' w = true -> Contains s w = true.
Proof.
  intros [k ->] H. induction k as [|a k IH]; [done|].
  by apply Contains_cons.
Qed.

Lemma TrimLeft_suffix s cutset : TrimLeft s cutset `suffix_of` s.
Proof.
  induction s as [|a s IH]; simpl; [done|].
  destruct (in_cutset cutset a); [by apply suffix_cons_r | done].
Qed.

Lemma TrimLeft_head s cutset a :
  head (TrimLeft s cutset) = Some a -> in_cutset cutset a = false.
Proof.
  induction s as [|b s IH]; simpl; [done|].
  destruct (in_cutset cutset b) eqn:E; [done|].
  simpl. by intros [= <-].
Qed.

Lemma TrimRight_prefix s cutset : TrimRight s cutset `prefix_of` s.
Proof.
  unfold TrimRight.
  destruct (TrimLeft_suffix (reverse s) cutset) as [k Hk].
  exists (reverse k).
  rewrite <- reverse_app, <- Hk. by rewrite reverse_involutive.
Qed.

Lemma TrimRight_last s cutset a :
  last (TrimRight s cutset) = Some a -> in_cutset cutset a = false.
Proof.
  unfold TrimRight. rewrite last_reverse.
  apply TrimLeft_head.
Qed.

Lemma TrimRight_head s cutset a :
  head (TrimRight s cutset) = Some a -> head s = Some a.
Proof.
  destruct (TrimRight_prefix s cutset) as [k Hk].
  destruct (TrimRight s cutset) as [|b t]; [done|].
  rewrite Hk. done.
Qed.

(** [Trim] leaves no byte of the cutset at either end. *)
Lemma Trim_trimmed s cutset : trimmed cutset (Trim s cutset).
Proof.
  unfold Trim; split; intros a Ha.
  - apply TrimRight_head in Ha. by apply TrimLeft_head in Ha.
  - by apply TrimRight_last in Ha.
Qed.

Lemma replace_from_erase old s k x :
  x ∈ replace_from old [] s k -> x ∈ s.
Proof.
  revert k; induction s as [|a s IH]; intros k; simpl; [done|].
  destruct k as [|k].
  - destruct (HasPrefix (a :: s) old); simpl.
    + intros H%IH. by right.
    + intros [->|H%IH]%elem_of_cons; [by left | by right].
  - intros H%IH. by right.
Qed.

Lemma Replace_erase s old x : x ∈ Replace s old [] -> x ∈ s.
Proof. apply replace_from_erase. Qed.

Lemma split_from_not_nil sep s cur k : split_from sep s cur k <> [].
Proof.
  revert cur k; induction s as [|a s IH]; intros cur k; simpl; [done|].
  destruct k; [|done]. by destruct (HasPrefix (a :: s) sep).
Qed.

(** [Split] never returns an empty slice, so indexing its result at 0 is
    safe. *)
Lemma Split_not_nil s sep : Split s sep <> [].
Proof. apply split_from_not_nil. Qed.

End strings_facts.

(** ** Facts about the matcher *)

Section regexp_facts.
Implicit Types (r re : regex) (s : text) (c : caps).
#[local] Arguments Ascii.eqb : simpl never.

Lemma strip_prefix w s s' : strip w s = Some s' -> s = w ++ s'.
Proof.
  revert s; induction w as [|a w IH]; intros s; simpl.
  - by intros [= ->].
  - destruct s as [|b s]; [done|].
    destruct (Ascii.eqb a b) eqn:E; [|done].
    apply Ascii.eqb_eq in E as ->. by intros ->%IH.
Qed.

Lemma strip_HasPrefix w s s' : strip w s = Some s' -> HasPrefix s w = true.
Proof. intros ->%strip_prefix. apply HasPrefix_app. Qed.

(** What a repetition reads consists of bytes of its class. *)
Lemma spans_read p s s' :
  s' ∈ spans p s -> exists w, s = w ++ s' /\ Forall (fun a => p a = true) w.
Proof.
  induction s as [|a s IH]; simpl.
  - intros ->%list_elem_of_singleton. by exists [].
  - intros [->|H]%elem_of_cons; [by exists []|].
    destruct (p a) eqn:E; [|by apply elem_of_nil in H].
    destruct (IH H) as (w & -> & Hw). exists (a :: w). split; [done|].
    by constructor.
Qed.

Lemma elem_of_drop_inv {A} (x : A) n (l : list A) : x ∈ drop n l -> x ∈ l.
Proof.
  revert n; induction l as [|a l IH]; intros [|n]; simpl; try done.
  intros H%IH. by right.
Qed.

Lemma spans_not_nil p s : spans p s <> [].
Proof. by destruct s. Qed.

Lemma consumed_app w s : consumed (w ++ s) s = w.
Proof.
  unfold consumed. rewrite length_app.
  replace (length w + length s - length s) with (length w) by lia.
  by rewrite take_app_length.
Qed.

(** A run of a pattern leaves a suffix of its input. *)
Lemma runs_suffix r s c s' c' : (s', c') ∈ runs r s c -> s' `suffix_of` s.
Proof.
  revert s c s' c'; induction r as [w|p|g n p|r1 IH1 r2 IH2|r1 IH1 r2 IH2|r IH|i r IH];
    intros s c s' c'; simpl.
  - destruct (strip w s) as [t|] eqn:E; [|by intros ?%elem_of_nil].
    intros [= -> ->]%list_elem_of_singleton.
    apply strip_prefix in E as ->. by apply suffix_app_r.
  - destruct s as [|a s]; [by intros ?%elem_of_nil|].
    destruct (p a); [|by intros ?%elem_of_nil].
    intros [= -> ->]%list_elem_of_singleton. by apply suffix_cons_r.
  - intros (t & [= -> ->] & Ht)%list_elem_of_fmap.
    assert (t ∈ spans p s) as Hs.
    { destruct g.
      - rewrite elem_of_reverse in Ht. eapply elem_of_drop_inv, Ht.
      - eapply elem_of_drop_inv, Ht. }
    destruct (spans_read _ _ _ Hs) as (w & -> & _). by apply suffix_app_r.
  - intros ([s1 c1] & H2 & H1)%list_elem_of_bind.
    etrans; [by eapply IH2 | by eapply IH1].
  - intros [H|H]%elem_of_app; [by eapply IH1 | by eapply IH2].
  - intros [H|[= -> ->]%list_elem_of_singleton]%elem_of_app; [by eapply IH | done].
  - intros ([s1 c1] & [= -> ->] & H)%list_elem_of_fmap. by eapply IH.
Qed.

(** A run only changes the captures of the groups of its pattern. *)
Lemma runs_frame r s c s' c' i :
  (s', c') ∈ runs r s c -> i ∉ groups r -> c' !! i = c !! i.
Proof.
  revert s c s' c'; induction r as [w|p|g n p|r1 IH1 r2 IH2|r1 IH1 r2 IH2|r IH|j r IH];
    intros s c s' c'; simpl.
  - destruct (strip w s); [|by intros ?%elem_of_nil].
    by intros [= -> ->]%list_elem_of_singleton.
  - destruct s as [|a s]; [by intros ?%elem_of_nil|].
    destruct (p a); [|by intros ?%elem_of_nil].
    by intros [= -> ->]%list_elem_of_singleton.
  - by intros (t & [= -> ->] & Ht)%list_elem_of_fmap.
  - intros ([s1 c1] & H2 & H1)%list_elem_of_bind Hi.
    rewrite not_elem_of_app in Hi. destruct Hi as [Hi1 Hi2].
    etrans; [by eapply IH2 | by eapply IH1].
  - intros H Hi. rewrite not_elem_of_app in Hi. destruct Hi as [Hi1 Hi2].
    apply elem_of_app in H as [H|H]; [by eapply IH1 | by eapply IH2].
  - intros [H|[= -> ->]%list_elem_of_singleton]%elem_of_app Hi; [by eapply IH | done].
  - intros ([s1 c1] & [= -> ->] & H)%list_elem_of_fmap Hi.
    apply not_elem_of_cons in Hi as [Hij Hi]. simpl.
    rewrite lookup_insert_ne by done. by eapply IH.
Qed.

Lemma runs_Cat_Lit w r s c :
  runs (Cat (Lit w) r) s c =
  match strip w s with Some s' => runs r s' c | None => [] end.
Proof.
  simpl. destruct (strip w s); [|done]. csimpl. by rewrite app_nil_r.
Qed.

(** Replacing the rest of a pattern by one that matches at least as often
    keeps a match. *)
Lemma runs_Cat_mono r1 r2 r2' s c :
  (forall s' c', runs r2 s' c' <> [] -> runs r2' s' c' <> []) ->
  runs (Cat r1 r2) s c <> [] -> runs (Cat r1 r2') s c <> [].
Proof.
  intros Hmono. simpl. induction (runs r1 s c) as [|[s1 c1] l IH]; [done|].
  change (runs r2 s1 c1 ++ (l ≫= fun sc => runs r2 sc.1 sc.2) <> [] ->
          runs r2' s1 c1 ++ (l ≫= fun sc => runs r2' sc.1 sc.2) <> []).
  intros Hne Hnil. apply app_eq_nil in Hnil as [H1 H2].
  destruct (runs r2 s1 c1) eqn:E.
  - by apply IH.
  - apply (Hmono s1 c1); [by rewrite E | done].
Qed.

Lemma runs_Cat_elem r1 r2 s c x :
  x ∈ runs (Cat r1 r2) s c <->
  exists s1 c1, (s1, c1) ∈ runs r1 s c /\ x ∈ runs r2 s1 c1.
Proof.
  simpl. rewrite list_elem_of_bind. split.
  - intros ([s1 c1] & H2 & H1). by exists s1, c1.
  - intros (s1 & c1 & H1 & H2). by exists (s1, c1).
Qed.

Lemma runs_Group_elem i r s c s' c' :
  (s', c') ∈ runs (Group i r) s c <->
  exists c1, (s', c1) ∈ runs r s c /\ c' = <[i := consumed s s']> c1.
Proof.
  simpl. rewrite list_elem_of_fmap. split.
  - intros ([s1 c1] & [= -> ->] & H). by exists c1.
  - intros (c1 & H & ->). by exists (s', c1).
Qed.

Lemma runs_Opt_elem r s c x :
  x ∈ runs (Opt r) s c <-> x ∈ runs r s c \/ x = (s, c).
Proof. simpl. by rewrite elem_of_app, list_elem_of_singleton. Qed.

Lemma search_None re s : search re s = None -> match_here re s = None.
Proof.
  destruct s; simpl; destruct (match_here re _) as [[m t]|]; done.
Qed.

(** A match found by [search] is the preferred run at some suffix. *)
Lemma search_Some re s m s0 s' :
  search re s = Some (m, s0, s') ->
  s0 `suffix_of` s /\
  exists c l, runs re s0 ∅ = (s', c) :: l /\ m = pad re s0 s' c.
Proof.
  induction s as [|a s IH]; simpl.
  - unfold match_here. destruct (runs re [] ∅) as [|[t c] l] eqn:E; [done|].
    intros [= <- <- <-]. split; [done|]. by exists c, l.
  - unfold match_here. destruct (runs re (a :: s) ∅) as [|[t c] l] eqn:E.
    + intros [Hs H]%IH. split; [by apply suffix_cons_r | done].
    + intros [= <- <- <-]. split; [done|]. by exists c, l.
Qed.

(** Whenever a pattern matches at a suffix, [search] finds a match. *)
Lemma search_complete re s s0 :
  s0 `suffix_of` s -> runs re s0 ∅ <> [] -> search re s <> None.
Proof.
  intros [k ->] Hne.
  assert (match_here re s0 <> None) as Hhere.
  { unfold match_here. by destruct (runs re s0 ∅) as [|[t c] l]. }
  induction k as [|a k IH]; simpl.
  - clear Hne. destruct s0; simpl; by destruct (match_here re _) as [[m t]|].
  - by destruct (match_here re (a :: k ++ s0)) as [[m t]|].
Qed.

Lemma FindAllSubmatch_head re b :
  head (FindAllSubmatch re b) = (fun x => x.1.1) <$> search re b.
Proof.
  unfold FindAllSubmatch. simpl.
  destruct (search re b) as [[[m s0] s']|]; [|done].
  by destruct (length s' <? length s0).
Qed.

Lemma FindAllSubmatch_nil re b :
  FindAllSubmatch re b = [] <-> search re b = None.
Proof.
  unfold FindAllSubmatch. simpl.
  destruct (search re b) as [[[m s0] s']|]; [|done].
  by destruct (length s' <? length s0).
Qed.

End regexp_facts.

(** ** Facts about the two patterns *)

Section pattern_facts.
Implicit Types (s raw : text) (c : caps) (m : submatch).
#[local] Arguments Ascii.eqb : simpl never.

(** Decides that a number is not among the groups of a part of a pattern. *)
Ltac not_a_group :=
  cbv [groups propBaseRegexp flag_group type_keyword app];
  rewrite ?not_elem_of_cons; repeat split; try done; apply not_elem_of_nil.

(** The end of both patterns, a line feed and the docs group, matches
    exactly the inputs that start with a line feed and one more byte,
    whatever the number of the group. *)
Lemma docs_tail_matches i s c :
  runs (Cat (Lit [LF]) (Group i (Rep true 1 dot_s))) s c <> [] <->
  exists a t, s = LF :: a :: t.
Proof.
  rewrite runs_Cat_Lit. split.
  - destruct (strip [LF] s) as [s'|] eqn:E; [|done].
    apply strip_prefix in E as ->. destruct s' as [|a t]; [done|].
    by exists a, t.
  - intros (a & t & ->). simpl. intros H%(f_equal length).
    rewrite !length_fmap, length_reverse in H.
    pose proof (spans_not_nil dot_s t) as Hn.
    by destruct (spans dot_s t).
Qed.

Lemma flag_group_skip r s c :
  runs r s c <> [] -> runs (Cat flag_group r) s c <> [].
Proof.
  intros Hne. simpl. rewrite bind_app. csimpl. rewrite app_nil_r.
  intros [_ H]%app_eq_nil. done.
Qed.

(** Wherever the second pattern matches, the first matches too: its
    bracketed group is optional. *)
Lemma loose_strict_here s c :
  runs re_loose s c <> [] -> runs re_strict s c <> [].
Proof.
  unfold re_loose, re_strict.
  apply runs_Cat_mono; intros s1 c1.
  apply runs_Cat_mono; intros s2 c2 H.
  apply flag_group_skip. apply docs_tail_matches.
  by apply docs_tail_matches in H.
Qed.

Lemma loose_strict_search s :
  search re_strict s = None -> search re_loose s = None.
Proof.
  induction s as [|a s IH]; simpl; unfold match_here.
  - destruct (runs re_strict [] ∅) as [|[t c] l] eqn:E; [|done]. intros _.
    destruct (runs re_loose [] ∅) as [|[t c] l] eqn:E'; [done|].
    destruct (loose_strict_here [] ∅); [by rewrite E' | done].
  - destruct (runs re_strict (a :: s) ∅) as [|[t c] l] eqn:E; [|done].
    intros H%IH.
    destruct (runs re_loose (a :: s) ∅) as [|[t c] l] eqn:E'; [done|].
    destruct (loose_strict_here (a :: s) ∅); [by rewrite E' | done].
Qed.

(** A block that the second pattern matches is matched by the first. *)
Lemma loose_strict raw : matches re_loose raw -> matches re_strict raw.
Proof.
  unfold matches. rewrite !FindAllSubmatch_nil.
  intros H Hs. by apply H, loose_strict_search.
Qed.

Lemma strict_match_None raw :
  strict_match raw = None <-> FindAllSubmatch re_strict raw = [].
Proof. unfold strict_match. by destruct (FindAllSubmatch re_strict raw). Qed.

Lemma strict_match_matches raw :
  matches re_strict raw <-> is_Some (strict_match raw).
Proof.
  unfold matches. rewrite <- strict_match_None, <- not_eq_None_Some. done.
Qed.

(** The shape of a match of the first pattern: the whole match and four
    groups, read off the captures of the preferred run. *)
Lemma strict_match_Some raw m :
  strict_match raw = Some m ->
  exists s0 s' c l,
    s0 `suffix_of` raw /\ runs re_strict s0 ∅ = (s', c) :: l /\
    m = [Some (consumed s0 s'); c !! 1; c !! 2; c !! 3; c !! 4].
Proof.
  unfold strict_match. rewrite FindAllSubmatch_head.
  destruct (search re_strict raw) as [[[m' s0] s']|] eqn:E; [|done].
  intros [= <-]. apply search_Some in E as (Hs & c & l & Hr & ->).
  by exists s0, s', c, l.
Qed.

(** The name group reads a capital letter and then bytes other than the
    line feed. *)
Lemma name_read s c s' c' :
  (s', c') ∈ runs (Cat (Class upper) (Rep false 1 dot)) s c ->
  exists w, s = w ++ s' /\ LF ∉ w.
Proof.
  intros (s1 & c1 & H1 & H2)%runs_Cat_elem. simpl in H1, H2.
  destruct s as [|a s]; [by apply elem_of_nil in H1|].
  destruct (upper a) eqn:Ea; [|by apply elem_of_nil in H1].
  apply list_elem_of_singleton in H1 as [= -> ->].
  apply list_elem_of_fmap in H2 as (t & [= -> ->] & Ht).
  assert (t ∈ spans dot s) as Hs.
  { destruct s; simpl in Ht; [by apply elem_of_nil in Ht | by right]. }
  apply spans_read in Hs as (w & -> & Hw).
  exists (a :: w). split; [done|].
  apply not_elem_of_cons. split.
  - by intros <-.
  - intros Hin. rewrite Forall_forall in Hw. by specialize (Hw _ Hin).
Qed.

(** The captures of a run of the first pattern: the name holds no line
    feed, and the bracketed group takes part only if the input has " [". *)
Lemma strict_run_groups s0 s' c :
  (s', c) ∈ runs re_strict s0 ∅ ->
  (exists n, c !! 2 = Some n /\ LF ∉ n) /\
  (Contains s0 (T " [") = false -> c !! 3 = None).
Proof.
  unfold re_strict.
  intros (sB & cB & HB & H)%runs_Cat_elem.
  apply runs_Cat_elem in H as (sP & cP & HP & H).
  apply runs_Cat_elem in H as (sF & cF & HF & H).
  assert (forall i, i <> 4 -> c !! i = cF !! i) as Htail.
  { intros i Hi. eapply runs_frame; [done|]. not_a_group. }
  assert (forall i, i <> 3 -> cF !! i = cP !! i) as Hflag.
  { intros i Hi. eapply runs_frame; [done|]. not_a_group. }
  split.
  - rewrite Htail, Hflag by done.
    unfold propBaseRegexp in HP.
    apply runs_Cat_elem in HP as (s1 & c1 & _ & HP).
    apply runs_Cat_elem in HP as (s2 & c2 & _ & HP).
    apply runs_Group_elem in HP as (c3 & (w & -> & Hw)%name_read & ->).
    exists w. by rewrite lookup_insert_eq, consumed_app.
  - intros Hno. rewrite Htail by done.
    assert (sP `suffix_of` s0) as Hsuf.
    { etrans; by eapply runs_suffix. }
    unfold flag_group in HF.
    apply runs_Opt_elem in HF as [HF | [= -> ->]].
    + apply runs_Group_elem in HF as (c3 & HF & _).
      rewrite runs_Cat_Lit in HF.
      destruct (strip (T " [") sP) as [t|] eqn:E; [|by apply elem_of_nil in HF].
      apply strip_HasPrefix, Contains_here in E.
      by rewrite (Contains_suffix _ _ _ Hsuf E) in Hno.
    + transitivity (cB !! 3).
      * eapply runs_frame; [done|]. not_a_group.
      * transitivity ((∅ : caps) !! 3); [|done].
        eapply runs_frame; [done|]. not_a_group.
Qed.

Lemma strict_match_groups raw m :
  strict_match raw = Some m ->
  exists w g1 n g3 g4,
    m = [w; g1; Some n; g3; g4] /\ (LF ∉ n) /\
    (Contains raw (T " [") = false -> g3 = None).
Proof.
  intros (s0 & s' & c & l & Hsuf & Hr & ->)%strict_match_Some.
  destruct (strict_run_groups s0 s' c) as [(n & Hn & HLF) H3].
  { rewrite Hr. by left. }
  exists (Some (consumed s0 s')), (c !! 1), n, (c !! 3), (c !! 4).
  rewrite Hn. split; [done|]. split; [done|].
  intros Hno. apply H3.
  destruct (Contains s0 (T " [")) eqn:E; [|done].
  by rewrite (Contains_suffix _ _ _ Hsuf E) in Hno.
Qed.

End pattern_facts.

(** ** Facts about [Parse] *)

Section parse_facts.
Implicit Types (raw : text) (h : heap) (m : submatch).
Implicit Types (w g : option text).

Lemma property_of_groups w g1 g2 g3 g4 :
  property_of [w; g1; g2; g3; g4] = Done (property_from g1 g2 g3 g4).
Proof.
  unfold property_of, property_from. simpl.
  by destruct (parse_name (string_of g2) (parse_docs (string_of g4))).
Qed.

(** A block that the first pattern matches: [Parse] fills the property of
    the parser from the first match and returns no error. *)
Lemma Parse_found (g : PropertyParser) raw h m q :
  strict_match raw = Some m -> h !! model g = Some q ->
  exists w g1 g2 g3 g4,
    m = [w; g1; g2; g3; g4] /\
    Parse g raw h =
      Done (<[model g := property_from g1 g2 g3 g4]> h, (model g, None)).
Proof.
  intros Hm Hq.
  destruct (strict_match_Some _ _ Hm) as (s0 & s' & c & l & _ & _ & ->).
  eexists _, _, _, _, _. split; [done|].
  unfold strict_match in Hm. unfold Parse.
  destruct (FindAllSubmatch re_strict raw) as [|m0 ms]; [done|].
  injection Hm as ->. simpl.
  rewrite property_of_groups. simpl. unfold deref. by rewrite Hq.
Qed.

(** A block that the first pattern does not match: the second pattern is
    tried, does not match either, and the error is returned. *)
Lemma Parse_not_found (g : PropertyParser) raw h :
  strict_match raw = None ->
  Parse g raw h = Done (h, (model g, Some (T "No property found"))).
Proof.
  intros Hm%strict_match_None. unfold Parse. rewrite Hm. simpl.
  destruct (FindAllSubmatch re_loose raw) as [|m ms] eqn:E; [done|].
  destruct (loose_strict raw); [|done]. unfold matches. by rewrite E.
Qed.

(** [Parse] never returns an error together with a change of the heap, and
    the pointer is always the one of the parser. *)
Lemma Parse_Done (g : PropertyParser) raw h h' p e :
  Parse g raw h = Done (h', (p, e)) ->
  p = model g /\
  match e with
  | Some msg => strict_match raw = None /\ h' = h /\ msg = T "No property found"
  | None => exists m q w g1 g2 g3 g4,
      strict_match raw = Some m /\ h !! model g = Some q /\
      m = [w; g1; g2; g3; g4] /\
      h' = <[model g := property_from g1 g2 g3 g4]> h
  end.
Proof.
  destruct (strict_match raw) as [m|] eqn:Hm.
  - destruct (h !! model g) as [q|] eqn:Hq.
    + destruct (Parse_found _ _ _ _ _ Hm Hq) as (w & g1 & g2 & g3 & g4 & -> & ->).
      intros [= <- <- <-]. split; [done|]. by eexists _, q, _, _, _, _, _.
    + destruct (strict_match_Some _ _ Hm) as (s0 & s' & c & l & _ & _ & ->).
      unfold strict_match in Hm. unfold Parse.
      destruct (FindAllSubmatch re_strict raw) as [|m0 ms]; [done|].
      injection Hm as ->. simpl. rewrite property_of_groups. simpl.
      unfold deref. by rewrite Hq.
  - rewrite Parse_not_found by done. by intros [= <- <- <-].
Qed.

Lemma parsed_Some raw m :
  strict_match raw = Some m -> exists prop, parsed raw = Some prop /\
    property_of m = Done prop.
Proof.
  intros Hm. unfold parsed. rewrite Hm.
  destruct (strict_match_Some _ _ Hm) as (s0 & s' & c & l & _ & _ & ->).
  rewrite property_of_groups. by eexists.
Qed.

Lemma last_parsed_snoc init raws raw :
  last_parsed init (raws ++ [raw])
  = default (last_parsed init raws) (parsed raw).
Proof.
  revert init; induction raws as [|r raws IH]; intros init; simpl; [done|].
  apply IH.
Qed.

(** Calls on one parser, in sequence: every call returns, with the pointer
    of the parser; a call returns no error exactly for a block that the
    first pattern matches; and the property of the parser ends up with the
    field values of the last such block. *)
Lemma ParseAll_spec (g : PropertyParser) (raws : list text) h q :
  h !! model g = Some q ->
  exists h' rs,
    ParseAll g raws h = Done (h', rs) /\
    Forall2 (fun raw r => r.1 = model g /\
                          (r.2 = None <-> is_Some (parsed raw)))
            raws rs /\
    h' !! model g = Some (last_parsed q raws).
Proof.
  revert h q; induction raws as [|raw raws IH]; intros h q Hq; simpl.
  - by exists h, [].
  - destruct (strict_match raw) as [m|] eqn:Hm.
    + destruct (Parse_found g _ _ _ _ Hm Hq) as (w & g1 & g2 & g3 & g4 & -> & ->).
      destruct (parsed_Some _ _ Hm) as (prop & Hprop & Hof).
      rewrite property_of_groups in Hof. injection Hof as <-.
      rewrite Hprop. simpl.
      destruct (IH (<[model g := property_from g1 g2 g3 g4]> h)
                   (property_from g1 g2 g3 g4)) as (h' & rs & -> & Hrs & Hh').
      { by rewrite lookup_insert_eq. }
      exists h', ((model g, None) :: rs). split; [done|]. split; [|done].
      constructor; [|done]. simpl. split; [done|]. by rewrite Hprop.
    + rewrite (Parse_not_found g raw h Hm).
      assert (parsed raw = None) as Hnone by (unfold parsed; by rewrite Hm).
      rewrite Hnone. simpl.
      destruct (IH h q Hq) as (h' & rs & -> & Hrs & Hh').
      eexists h', (_ :: rs). split; [done|]. split; [|done].
      constructor; [|done]. simpl. split; [done|]. rewrite Hnone.
      split; [done | by intros [? ?]].
Qed.

End parse_facts.

(** ** Facts about the flag list *)

Section flag_facts.
Implicit Types (tok : text) (toks : list text) (flags : list Flag).








End flag_facts.

(** ** The model on sample blocks *)

Section sample_runs.
Import samples.

(** The groups of the line quoted in [property.go]. *)
Example strict_match_block_handle :
  strict_match block_handle
  = Some [Some block_handle;
          Some (T "int16");
          Some (T "Handle (optional)");
          Some (T " [read-write, experimental] (Server Only)");
          Some ([TAB; TAB; TAB] ++ T "Handle of the attribute." ++ [LF])].
Proof. by vm_compute. Qed.

Example Parse_block_readonly :
  Parse parser0 block_readonly heap0
  = Done (<[model parser0 :=
              mkProperty (T "string") (T "Address") [FlagReadOnly]
                (T "The Bluetooth device address.")]> heap0,
          (model parser0, None)).
Proof. by vm_compute. Qed.

Example Parse_block_plain :
  Parse parser0 block_plain heap0
  = Done (<[model parser0 :=
              mkProperty (T "uint16") (T "Version") []
                (T "Version of the profile.")]> heap0,
          (model parser0, None)).
Proof. by vm_compute. Qed.

Example Parse_block_none :
  Parse parser0 block_none heap0
  = Done (heap0, (model parser0, Some (T "No property found"))).
Proof. by vm_compute. Qed.

(** A flag list of one access flag gives that flag alone. *)
Example parse_flags_readonly : parse_flags (T " [readonly]") = [FlagReadOnly].
Proof. by vm_compute. Qed.

Example parse_flags_readwrite :
  parse_flags (T " [readwrite]") = [FlagReadWrite].
Proof. by vm_compute. Qed.

(** After a comma and a space the piece starts with the space and names no
    flag. *)
Example parse_flags_after_space :
  parse_flags (T " [readwrite, experimental]") = [FlagReadWrite].
Proof. by vm_compute. Qed.

(** The second pattern on a block with a flag list: three groups, the name
    group takes the flag list in.  [Parse] never uses such a match. *)
Example loose_submatch_block_both :
  FindAllSubmatch re_loose block_both
  = [[Some block_both; Some (T "string");
      Some (T "Foo [readonly,readwrite]"); Some (T "Docs")]].
Proof. by vm_compute. Qed.

(** The example of the specification: the empty [ToOmit] and the ignored
    [Ignored] are left out. *)
Example ToMap_test_record :
  props.ToMap test_fields test_record
  = {[ T "Avail" := dbus.VString (T "foo") ]}.
Proof. by vm_compute. Qed.

End sample_runs.

(** ** The property block parser *)

Section parser_claims.
Import samples.
Implicit Types (raw : text) (h : heap) (m : submatch).




(** Line 93 never changes a name: the name group holds no line feed, so
    the three bytes space, tab, line feed do not occur in it in a row. *)
Lemma Replace_without_LF (s : text) :
  LF ∉ s -> Replace s [SP; TAB; LF] [] = s.
Proof.
  unfold Replace. induction s as [|a s IH]; [done|].
  intros [Ha Hs]%not_elem_of_cons. cbn [replace_from].
  destruct (HasPrefix (a :: s) [SP; TAB; LF]) eqn:E.
  - apply HasPrefix_inv in E as [s' E]. simpl in E. injection E as -> ->.
    exfalso. apply Hs. by right; left.
  - f_equal. by apply IH.
Qed.

(** So the name that [Parse] returns is the name group, without its
    [ (optional)] when it holds the word: spaces and tabs stay. *)
Lemma parse_name_keeps_spaces (n docs : text) :
  LF ∉ n ->
  (parse_name n docs).1
  = if Contains n (T "optional") then Replace n (T " (optional)") [] else n.
Proof.
  intros Hn. unfold parse_name. destruct (Contains n (T "optional")); simpl.
  - apply Replace_without_LF. by intros ?%Replace_erase.
  - by apply Replace_without_LF.
Qed.

(** C3, counterexample.  The block [string Foo Bar (optional)] with docs of
    one space matches the first pattern; [Parse] returns the name
    [Foo Bar], which holds a space, and the docs [(optional) ], which end
    with a space. *)
Lemma C3_name_and_docs_counterexample :
  matches re_strict block_words /\
  exists prop,
    Parse parser0 block_words heap0
      = Done (<[model parser0 := prop]> heap0, (model parser0, None)) /\
    (exists a, a ∈ Name prop /\ is_space a = true) /\
    (exists a, last (Docs prop) = Some a /\ is_space a = true).
Proof.
  split; [by vm_compute|].
  exists (mkProperty (T "string") (T "Foo Bar") [] (T "(optional) ")).
  split; [by vm_compute|]. split; exists SP; split; try done.
  simpl. by do 3 right; left.
Qed.

(** C3, amended.  For every block that matches one of the two patterns,
    [Parse] returns no error and reads the name from the second group and
    the docs from the fourth group of the first pattern's match.  The name
    is the name group, without its [ (optional)] when the group holds the
    word [optional]; it holds no line feed.  The docs are the docs group
    with every sequence of space, tab and line feed removed and then
    trimmed of spaces, tabs and line feeds at both ends, so that text has
    no leading or trailing space, tab or line feed; it is preceded by the
    marker [(optional) ] exactly when the name group holds the word
    [optional]. *)
Theorem C3_name_and_docs (g : PropertyParser) raw h q :
  h !! model g = Some q ->
  matches re_strict raw \/ matches re_loose raw ->
  exists m n g4 prop,
    strict_match raw = Some m /\
    m !! 2 = Some (Some n) /\ m !! 4 = Some g4 /\
    Parse g raw h = Done (<[model g := prop]> h, (model g, None)) /\
    (LF ∉ Name prop) /\
    Name prop = (if Contains n (T "optional")
                 then Replace n (T " (optional)") [] else n) /\
    trimmed [SP; TAB; LF]
      (Trim (Replace (string_of g4) [SP; TAB; LF] []) [SP; TAB; LF]) /\
    Docs prop
    = (if Contains n (T "optional")
       then T "(optional) "
            ++ Trim (Replace (string_of g4) [SP; TAB; LF] []) [SP; TAB; LF]
       else Trim (Replace (string_of g4) [SP; TAB; LF] []) [SP; TAB; LF]).
Proof.
  intros Hq Hmatch.
  assert (matches re_strict raw) as [m Hm]%strict_match_matches.
  { destruct Hmatch; [done | by apply loose_strict]. }
  destruct (strict_match_groups _ _ Hm) as (w & g1 & n & g3 & g4 & -> & Hn & _).
  destruct (Parse_found g _ _ _ _ Hm Hq)
    as (? & ? & ? & ? & ? & [= <- <- <- <- <-] & ->).
  exists [w; g1; Some n; g3; g4], n, g4, (property_from g1 (Some n) g3 g4).
  do 4 (split; [done|]).
  unfold property_from. change (string_of (Some n)) with n.
  cbn [Name Docs]. rewrite parse_name_keeps_spaces by done.
  split.
  { destruct (Contains n (T "optional")); [|done].
    by intros ?%Replace_erase. }
  split; [done|]. split; [apply Trim_trimmed|].
  unfold parse_name, parse_docs. by destruct (Contains n (T "optional")).
Qed.

Lemma C3_name_and_docs_witness :
  exists m n g4 prop,
    strict_match block_handle = Some m /\
    m !! 2 = Some (Some n) /\ m !! 4 = Some g4 /\
    Parse parser0 block_handle heap0
      = Done (<[model parser0 := prop]> heap0, (model parser0, None)) /\
    (LF ∉ Name prop) /\
    Name prop = (if Contains n (T "optional")
                 then Replace n (T " (optional)") [] else n) /\
    trimmed [SP; TAB; LF]
      (Trim (Replace (string_of g4) [SP; TAB; LF] []) [SP; TAB; LF]) /\
    Docs prop
    = (if Contains n (T "optional")
       then T "(optional) "
            ++ Trim (Replace (string_of g4) [SP; TAB; LF] []) [SP; TAB; LF]
       else Trim (Replace (string_of g4) [SP; TAB; LF] []) [SP; TAB; LF]).
Proof.
  apply (C3_name_and_docs parser0 block_handle heap0 zero_Property).
  - vm_compute. reflexivity.
  - left. vm_compute. discriminate.
Defined.

(** C4.  A block whose name group is [Handle (optional)] parses to the name
    [Handle] and to docs that are the marker [(optional) ] followed by the
    trimmed docs of the block: the marker is prepended once. *)
Theorem C4_optional_name (g : PropertyParser) raw h q m g4 :
  h !! model g = Some q ->
  strict_match raw = Some m ->
  m !! 2 = Some (Some (T "Handle (optional)")) ->
  m !! 4 = Some g4 ->
  exists prop,
    Parse g raw h = Done (<[model g := prop]> h, (model g, None)) /\
    Name prop = T "Handle" /\
    Docs prop = T "(optional) " ++ parse_docs (string_of g4).
Proof.
  intros Hq Hm H2 H4.
  destruct (Parse_found g _ _ _ _ Hm Hq) as (w & t1 & t2 & t3 & t4 & -> & ->).
  injection H2 as ->. injection H4 as ->.
  eexists. split; [done|]. done.
Qed.

Lemma C4_optional_name_witness :
  exists prop,
    Parse parser0 block_handle heap0
      = Done (<[model parser0 := prop]> heap0, (model parser0, None)) /\
    Name prop = T "Handle" /\
    Docs prop = T "(optional) "
                ++ parse_docs ([TAB; TAB; TAB] ++ T "Handle of the attribute."
                               ++ [LF]).
Proof.
  refine (C4_optional_name parser0 block_handle heap0 zero_Property
            [Some block_handle; Some (T "int16");
             Some (T "Handle (optional)");
             Some (T " [read-write, experimental] (Server Only)");
             Some ([TAB; TAB; TAB] ++ T "Handle of the attribute." ++ [LF])]
            (Some ([TAB; TAB; TAB] ++ T "Handle of the attribute." ++ [LF]))
            _ _ _ _).
  - vm_compute. reflexivity.
  - vm_compute. reflexivity.
  - reflexivity.
  - reflexivity.
Defined.



(** C6.  [Parse] returns an error exactly when neither pattern matches the
    block; the error is [No property found] and comes with the pointer of
    the parser and an unchanged heap.  A block that one of the patterns
    matches gives a property and no error.  In both cases [Parse] returns:
    it does not panic. *)
Theorem C6_no_property_found (g : PropertyParser) raw h q :
  h !! model g = Some q ->
  ((exists h' p e, Parse g raw h = Done (h', (p, Some e))) <->
     ~ matches re_strict raw /\ ~ matches re_loose raw) /\
  (~ matches re_strict raw /\ ~ matches re_loose raw ->
     Parse g raw h = Done (h, (model g, Some (T "No property found")))) /\
  (matches re_strict raw \/ matches re_loose raw ->
     exists prop,
       Parse g raw h = Done (<[model g := prop]> h, (model g, None))) /\
  Parse g raw h <> Panic.
Proof.
  intros Hq.
  destruct (strict_match raw) as [m|] eqn:Hm.
  - assert (matches re_strict raw) as Hs by (by apply strict_match_matches).
    destruct (Parse_found g _ _ _ _ Hm Hq) as (w & g1 & g2 & g3 & g4 & -> & HP).
    rewrite HP. split; [split|split; [|split]].
    + by intros (h' & p & e & ?).
    + by intros [? _].
    + by intros [? _].
    + intros _. by eexists.
    + done.
  - assert (~ matches re_strict raw) as Hs.
    { rewrite strict_match_matches, Hm. by intros [? ?]. }
    assert (~ matches re_loose raw) as Hl.
    { by intros ?%loose_strict. }
    rewrite (Parse_not_found g raw h Hm). split; [split|split; [|split]].
    + done.
    + intros _. by eexists _, _, _.
    + done.
    + by intros [?|?].
    + done.
Qed.

Lemma C6_no_property_found_witness :
  ((exists h' p e, Parse parser0 block_none heap0 = Done (h', (p, Some e))) <->
     ~ matches re_strict block_none /\ ~ matches re_loose block_none) /\
  (~ matches re_strict block_none /\ ~ matches re_loose block_none ->
     Parse parser0 block_none heap0
       = Done (heap0, (model parser0, Some (T "No property found")))) /\
  (matches re_strict block_none \/ matches re_loose block_none ->
     exists prop,
       Parse parser0 block_none heap0
         = Done (<[model parser0 := prop]> heap0, (model parser0, None))) /\
  Parse parser0 block_none heap0 <> Panic.
Proof.
  apply (C6_no_property_found parser0 block_none heap0 zero_Property).
  vm_compute. reflexivity.
Defined.



(** C9.  A parser made by [NewPropertyParser] owns one property object.
    Every call of [Parse] on it returns the pointer to that object; a call
    returns no error exactly for a block that the first pattern matches;
    after any sequence of calls the object holds the field values of the
    last block that was matched, the zero values when none was.  So a call
    that fails leaves the object as it was, and a later call that succeeds
    overwrites what an earlier call returned. *)
Theorem C9_shared_model (debug : bool) (h0 : heap) (raws : list text) :
  let g := (NewPropertyParser debug h0).1 in
  let h1 := (NewPropertyParser debug h0).2 in
  exists h' rs,
    ParseAll g raws h1 = Done (h', rs) /\
    Forall2 (fun raw r => r.1 = model g /\
                          (r.2 = None <-> is_Some (parsed raw)))
            raws rs /\
    h' !! model g = Some (last_parsed zero_Property raws) /\
    (forall raw, parsed raw = None ->
       last_parsed zero_Property (raws ++ [raw])
       = last_parsed zero_Property raws) /\
    (forall raw prop, parsed raw = Some prop ->
       last_parsed zero_Property (raws ++ [raw]) = prop).
Proof.
  intros g h1.
  destruct (ParseAll_spec g raws h1 zero_Property) as (h' & rs & HP & Hrs & Hh').
  { subst g h1. simpl. by rewrite lookup_insert_eq. }
  exists h', rs. split; [done|]. split; [done|]. split; [done|].
  split; intros raw; [intros Hraw | intros prop Hraw];
    by rewrite last_parsed_snoc, Hraw.
Qed.

Lemma C9_shared_model_witness :
  exists h' rs,
    ParseAll parser0 [block_readonly; block_none; block_plain; block_none]
      heap0 = Done (h', rs) /\
    Forall2 (fun raw r => r.1 = model parser0 /\
                          (r.2 = None <-> is_Some (parsed raw)))
            [block_readonly; block_none; block_plain; block_none] rs /\
    h' !! model parser0
      = Some (last_parsed zero_Property
                [block_readonly; block_none; block_plain; block_none]) /\
    (forall raw, parsed raw = None ->
       last_parsed zero_Property
         ([block_readonly; block_none; block_plain; block_none] ++ [raw])
       = last_parsed zero_Property
           [block_readonly; block_none; block_plain; block_none]) /\
    (forall raw prop, parsed raw = Some prop ->
       last_parsed zero_Property
         ([block_readonly; block_none; block_plain; block_none] ++ [raw])
       = prop).
Proof.
  exact (C9_shared_model false ∅
           [block_readonly; block_none; block_plain; block_none]).
Defined.

End parser_claims.

(** ** The generated property getters *)

Section getter_claims.
Import dbus media samples.

(** C10.  When [GetProperty] fails for the property of a getter, whatever
    value comes with the error, the getter returns the zero value of its
    return type (the empty object path, the empty string, 0, the empty byte
    slice) and that error. *)
Theorem C10_getters_fail (a : MediaTransport1) (name : text) (v : Variant)
  (e : media.error) :
  GetProperty a name = (v, Some e) ->
  (name = T "Device" -> GetDevice a = Done ([], Some e)) /\
  (name = T "UUID" -> GetUUID a = Done ([], Some e)) /\
  (name = T "Codec" -> GetCodec a = Done (0%Z, Some e)) /\
  (name = T "Configuration" -> GetConfiguration a = Done ([], Some e)) /\
  (name = T "State" -> GetState a = Done ([], Some e)) /\
  (name = T "Delay" -> GetDelay a = Done (0%Z, Some e)) /\
  (name = T "Volume" -> GetVolume a = Done (0%Z, Some e)).
Proof.
  intros H. repeat split; intros ->.
  - unfold GetDevice. by rewrite H.
  - unfold GetUUID. by rewrite H.
  - unfold GetCodec. by rewrite H.
  - unfold GetConfiguration. by rewrite H.
  - unfold GetState. by rewrite H.
  - unfold GetDelay. by rewrite H.
  - unfold GetVolume. by rewrite H.
Qed.

Lemma C10_getters_fail_witness :
  GetDevice (mkMediaTransport1 failing_client)
  = Done ([], Some (T "org.bluez.Error.Failed")).
Proof.
  refine (proj1 (C10_getters_fail (mkMediaTransport1 failing_client)
                   (T "Device") (VBool false)
                   (T "org.bluez.Error.Failed") _) _).
  - reflexivity.
  - reflexivity.
Defined.

End getter_claims.

(** ** The property marshaller *)

Section marshaller_claims.
Import dbus props samples.
Implicit Types (ty : list Field) (r : record) (m : PropertyMapping).

Lemma find_field_name ty name :
  name ∈ field_name <$> ty ->
  exists f, find_field ty name = Some f /\ f ∈ ty /\ field_name f = name.
Proof.
  unfold find_field. induction ty as [|f ty IH]; simpl.
  - by intros ?%elem_of_nil.
  - intros Hin. case_bool_decide as Hf.
    + exists f. split; [done|]. split; [by left | done].
    + apply elem_of_cons in Hin as [->|Hin]; [done|].
      destruct (IH Hin) as (f' & ? & ? & ?). exists f'.
      split; [done|]. split; [by right | done].
Qed.

Lemma instance_of_spec ty r :
  instance_of ty r ->
  (forall name, is_Some (r !! name) <-> name ∈ field_name <$> ty) /\
  (forall f v, f ∈ ty -> r !! field_name f = Some v ->
               kind_of v = field_kind f).
Proof.
  intros [Hdom Hkind]. split.
  - intros name. by rewrite <- elem_of_dom, Hdom, elem_of_list_to_set.
  - intros f v Hf Hv. rewrite Forall_forall in Hkind.
    specialize (Hkind f Hf). rewrite Hv in Hkind. by injection Hkind.
Qed.

Lemma left_out_excluded r f v :
  left_out r f = false -> r !! field_name f = Some v ->
  excluded r f v = false.
Proof. unfold left_out. intros H Hv. by rewrite Hv in H. Qed.

Lemma convert_same k v : kind_of v = k -> convert k v = Some v.
Proof. intros <-. unfold convert. by rewrite decide_True. Qed.

(** The fields that [ToMap] emits when none is left out: all of them. *)
Lemma ToMap_lookup ty r m0 name :
  (forall f, f ∈ ty ->
     exists v, r !! field_name f = Some v /\ excluded r f v = false) ->
  foldl (fun m f =>
           match r !! field_name f with
           | Some v => if excluded r f v then m else <[field_name f := v]> m
           | None => m
           end) m0 ty !! name
  = if decide (name ∈ field_name <$> ty) then r !! name else m0 !! name.
Proof.
  revert m0; induction ty as [|f ty IH]; intros m0 Hall; cbn [foldl].
  - rewrite fmap_nil, decide_False; [done | apply not_elem_of_nil].
  - destruct (Hall f) as (v & Hv & Hex); [by left|].
    rewrite Hv, Hex, IH by (intros f' Hf'; apply Hall; by right).
    rewrite fmap_cons.
    destruct (decide (name ∈ field_name <$> ty)) as [Hin|Hin].
    + rewrite decide_True; [done | by right].
    + destruct (decide (name = field_name f)) as [->|Hne].
      * rewrite lookup_insert_eq, decide_True; [done | by left].
      * rewrite lookup_insert_ne by done.
        rewrite decide_False; [done|].
        by intros [?|?]%elem_of_cons.
Qed.

(** With no field left out, the property map has the values of the
    record. *)
Lemma ToMap_all ty r :
  instance_of ty r ->
  (forall f v, f ∈ ty -> r !! field_name f = Some v ->
               excluded r f v = false) ->
  ToMap ty r = r.
Proof.
  intros [Hdom Hkind]%instance_of_spec Hall. apply map_eq; intros name.
  unfold ToMap. rewrite ToMap_lookup.
  - case_decide as Hin; [done|]. rewrite lookup_empty. symmetry.
    apply eq_None_not_Some. by rewrite Hdom.
  - intros f Hf. destruct (r !! field_name f) as [v|] eqn:Hv.
    + exists v. split; [done|]. by eapply Hall.
    + assert (is_Some (r !! field_name f)) as [? ?]; [|congruence].
      apply Hdom. by apply list_elem_of_fmap_2.
Qed.

Lemma zero_record_None ty name :
  name ∉ field_name <$> ty -> zero_record ty !! name = None.
Proof.
  intros Hin. unfold zero_record. apply not_elem_of_list_to_map_1.
  by rewrite <- list_fmap_compose.
Qed.

(** Filling a fresh record from a map that holds a value of the declared
    kind for every field gives the record of these values. *)
Lemma MapToStruct_instance ty r :
  instance_of ty r -> MapToStruct ty (zero_record ty) r = (r, None).
Proof.
  intros [Hdom Hkind]%instance_of_spec. unfold MapToStruct.
  assert (r ⊆ r -> map_fold (assign ty) (zero_record ty, None) r
                   = (r ∪ zero_record ty, None)) as Hfold.
  { apply (map_fold_weak_ind
             (fun acc m => m ⊆ r -> acc = (m ∪ zero_record ty, None))).
    - intros _. by rewrite (left_id_L ∅ (∪)).
    - intros name v m acc Hm IH Hsub.
      rewrite IH by (etrans; [by apply insert_subseteq | done]).
      assert (r !! name = Some v) as Hr.
      { eapply lookup_weaken; [|done]. apply lookup_insert_eq. }
      destruct (find_field_name ty name) as (f & Hfind & Hf & Hname).
      { apply Hdom. by eexists. }
      unfold assign. rewrite Hfind.
      rewrite convert_same by (subst name; by eapply Hkind).
      by rewrite insert_union_l. }
  rewrite Hfold by done. f_equal.
  apply map_eq; intros name. destruct (r !! name) as [v|] eqn:Hr.
  - by apply lookup_union_Some_l.
  - rewrite lookup_union_r by done. rewrite <- Hr at 1.
    rewrite Hr. apply zero_record_None.
    rewrite <- Hdom, Hr. by intros [? ?].
Qed.

(** C2.  Round trip: for a record of a struct type none of whose fields is
    left out by [ToMap] (no [Skip], no [SkipIfFlag] on a set flag, no
    [OmitIfEmpty] on an empty value), [FromMap] of the map that [ToMap]
    returns gives the record back, with no error. *)
Theorem C2_round_trip ty (a r : record) :
  instance_of ty r ->
  Forall (fun f => left_out r f = false) ty ->
  media.FromMap ty a (media.ToMap ty r).1 = (r, None).
Proof.
  intros Hr Hall. unfold media.FromMap, media.FromDBusMap, media.ToMap. simpl.
  rewrite (ToMap_all ty r Hr).
  - change (media.MakeVariant <$> r) with (id <$> r). rewrite map_fmap_id.
    by apply MapToStruct_instance.
  - intros f v Hf Hv. rewrite Forall_forall in Hall.
    apply left_out_excluded; [by apply Hall | done].
Qed.

Lemma C2_round_trip_witness :
  media.FromMap media.MediaTransport1Properties_exported ∅
    (media.ToMap media.MediaTransport1Properties_exported
       transport_record).1
  = (transport_record, None).
Proof.
  apply (C2_round_trip media.MediaTransport1Properties_exported ∅
           transport_record).
  - apply (bool_decide_unpack _). vm_compute. reflexivity.
  - apply (bool_decide_unpack _). vm_compute. reflexivity.
Defined.

End marshaller_claims.

(** ** The code generator *)

Section generator_claims.
Import generator.
Variable render : InterfaceModel -> option text.
Variable artifact_path : text -> text -> text.
Implicit Types (models : list InterfaceModel) (root : text) (fs : tree).

(** What a run writes does not depend on the files that are there: the tree
    after the run is the tree before it, overlaid with the written files. *)
Lemma Generate_writes models root :
  exists (written : tree) (res : Result),
    forall fs,
      Generate render artifact_path models root fs = (written ∪ fs, res).
Proof.
  induction models as [|m models IH]; simpl.
  - exists ∅, Generated. intros fs. by rewrite (left_id_L ∅ (∪)).
  - destruct (render m) as [source|].
    + destruct IH as (written & res & IH).
      exists (written ∪ {[artifact_path root (interface_name m) := source]}),
             res.
      intros fs. rewrite IH, insert_union_singleton_l.
      by rewrite (assoc_L (∪)).
    + exists ∅, (RenderingFailed (interface_name m)). intros fs.
      by rewrite (left_id_L ∅ (∪)).
Qed.

(** C8.  Idempotence: a second run of the generator with the same models
    and the same destination root, on the tree that the first run left,
    ends with the same result and leaves the tree as it is. *)
Theorem C8_generate_idempotent models root fs :
  Generate render artifact_path models root
    (Generate render artifact_path models root fs).1
  = Generate render artifact_path models root fs.
Proof.
  destruct (Generate_writes models root) as (written & res & H).
  rewrite !H. simpl.
  by rewrite (assoc_L (∪)), (idemp_L (∪)).
Qed.

End generator_claims.

(** * Further properties of the code *)

(** ** The shape of a match *)

Section shape_facts.
Import shapes.
Implicit Types (r re : regex) (s : text) (c : caps).
#[local] Arguments Ascii.eqb : simpl never.

Lemma runs_Lit_elem w s c x :
  x ∈ runs (Lit w) s c <-> exists s', s = w ++ s' /\ x = (s', c).
Proof.
  simpl. split.
  - destruct (strip w s) as [s'|] eqn:E; [|by intros ?%elem_of_nil].
    intros ->%list_elem_of_singleton. exists s'.
    split; [by apply strip_prefix | done].
  - intros (s' & -> & ->). clear.
    assert (strip w (w ++ s') = Some s') as ->; [|by left].
    induction w as [|a w IH]; simpl; [done|]. by rewrite Ascii.eqb_refl.
Qed.

Lemma runs_Alt_elem r1 r2 s c x :
  x ∈ runs (Alt r1 r2) s c <-> x ∈ runs r1 s c \/ x ∈ runs r2 s c.
Proof. simpl. apply elem_of_app. Qed.

(** The inputs that [spans] lists, by the number of bytes read. *)
Lemma spans_lookup p s k s' :
  spans p s !! k = Some s' ->
  exists w, s = w ++ s' /\ length w = k /\ Forall (fun a => p a = true) w.
Proof.
  revert k; induction s as [|a s IH]; intros [|k]; simpl.
  - intros [= <-]. by exists [].
  - done.
  - intros [= <-]. by exists [].
  - destruct (p a) eqn:E; [|done]. intros (w & -> & <- & Hw)%IH.
    exists (a :: w). split; [done|]. split; [done|]. by constructor.
Qed.

(** What a repetition reads: at least [least] bytes, all of its class; the
    captures stay. *)
Lemma runs_Rep_elem g least p s c s' c' :
  (s', c') ∈ runs (Rep g least p) s c ->
  c' = c /\
  exists w, s = w ++ s' /\ least <= length w /\
            Forall (fun a => p a = true) w.
Proof.
  simpl. intros (t & [= -> ->] & Ht)%list_elem_of_fmap. split; [done|].
  assert (t ∈ drop least (spans p s)) as Hd.
  { destruct g; [by rewrite elem_of_reverse in Ht | done]. }
  apply list_elem_of_lookup in Hd as [k Hk]. rewrite lookup_drop in Hk.
  apply spans_lookup in Hk as (w & -> & Hlen & Hw).
  exists w. split; [done|]. split; [lia | done].
Qed.

Lemma Forall_dot_LF (w : text) : Forall (fun a => dot a = true) w -> LF ∉ w.
Proof.
  intros Hw Hin. rewrite Forall_forall in Hw. by specialize (Hw _ Hin).
Qed.

Lemma Forall_not_rbracket (w : text) :
  Forall (fun a => not_rbracket a = true) w -> "]"%char ∉ w.
Proof.
  intros Hw Hin. rewrite Forall_forall in Hw. by specialize (Hw _ Hin).
Qed.

(** The first group reads a type. *)
Lemma type_keyword_elem s c s1 c1 :
  (s1, c1) ∈ runs type_keyword s c ->
  c1 = c /\ exists t, s = t ++ s1 /\ type_text t.
Proof.
  unfold type_keyword. intros H.
  repeat (apply runs_Alt_elem in H as [H|H];
          [apply runs_Lit_elem in H as (s' & -> & [= -> ->]);
           split; [done|]; eexists; split; [done|];
           left; unfold type_keywords; set_solver |]).
  apply runs_Cat_elem in H as (s2 & c2 & H1 & H2).
  apply runs_Lit_elem in H1 as (s' & -> & [= -> ->]).
  apply runs_Rep_elem in H2 as (-> & u & -> & _ & Hu).
  split; [done|]. exists (T "array{" ++ u). split; [by rewrite <- app_assoc|].
  right. exists u. split; [done|]. by apply Forall_dot_LF.
Qed.

(** The second group reads a name. *)
Lemma name_elem s c s' c' :
  (s', c') ∈ runs (Cat (Class upper) (Rep false 1 dot)) s c ->
  c' = c /\ exists n, s = n ++ s' /\ name_text n.
Proof.
  intros (s1 & c1 & H1 & H2)%runs_Cat_elem. simpl in H1.
  destruct s as [|a s]; [by apply elem_of_nil in H1|].
  destruct (upper a) eqn:Ea; [|by apply elem_of_nil in H1].
  apply list_elem_of_singleton in H1 as [= -> ->].
  apply runs_Rep_elem in H2 as (-> & w & -> & Hlen & Hw).
  split; [done|]. exists (a :: w). split; [done|].
  exists a, w. split; [done|]. split; [done|].
  split; [by destruct w; [simpl in Hlen; lia|] | by apply Forall_dot_LF].
Qed.

(** The third group, when it takes part, reads a bracketed list and the
    rest of the line. *)
Lemma flag_group_elem s c s' c' :
  (s', c') ∈ runs flag_group s c ->
  (s' = s /\ c' = c) \/
  exists f, s = f ++ s' /\ flags_text f /\ c' = <[3 := f]> c.
Proof.
  unfold flag_group. intros [H | [= -> ->]]%runs_Opt_elem; [right | by left].
  pose proof (runs_suffix _ _ _ _ _ H) as Hsuf.
  apply runs_Group_elem in H as (c1 & H & ->).
  apply runs_Cat_elem in H as (s1 & c2 & H1 & H).
  apply runs_Lit_elem in H1 as (? & -> & [= -> ->]).
  apply runs_Cat_elem in H as (s2 & c2 & H1 & H).
  apply runs_Rep_elem in H1 as (-> & u & -> & _ & Hu).
  apply runs_Cat_elem in H as (s3 & c2 & H1 & H).
  apply runs_Lit_elem in H1 as (? & -> & [= -> ->]).
  apply runs_Rep_elem in H as (-> & v & -> & _ & Hv).
  exists (T " [" ++ u ++ T "]" ++ v).
  assert (T " [" ++ u ++ T "]" ++ v ++ s'
          = (T " [" ++ u ++ T "]" ++ v) ++ s') as Heq.
  { by rewrite <- !app_assoc. }
  split; [exact Heq|]. split.
  - exists u, v. split; [done|].
    split; [by apply Forall_not_rbracket | by apply Forall_dot_LF].
  - by rewrite Heq, consumed_app.
Qed.

(** The end of the first pattern reads a line feed and the docs, which are
    not empty. *)
Lemma docs_tail_elem s c s' c' :
  (s', c') ∈ runs (Cat (Lit [LF]) (Group 4 (Rep true 1 dot_s))) s c ->
  exists d, s = LF :: d ++ s' /\ d <> [] /\ c' = <[4 := d]> c.
Proof.
  intros (s1 & c1 & H1 & H)%runs_Cat_elem.
  apply runs_Lit_elem in H1 as (? & -> & [= -> ->]).
  apply runs_Group_elem in H as (c2 & H & ->).
  apply runs_Rep_elem in H as (-> & d & -> & Hlen & _).
  exists d. split; [done|]. split.
  - by destruct d; [simpl in Hlen; lia|].
  - by rewrite consumed_app.
Qed.

(** A run of the first pattern, piece by piece: blanks, the type, a space,
    the name, the bracketed group if it takes part, a line feed and the
    docs; the four groups hold these pieces. *)
Lemma strict_run_shape s0 s' c :
  (s', c) ∈ runs re_strict s0 ∅ ->
  exists ws t n g3 d,
    s0 = ws ++ t ++ T " " ++ n ++ string_of g3 ++ [LF] ++ d ++ s' /\
    Forall (fun a => blank a = true) ws /\
    type_text t /\ name_text n /\
    (forall f, g3 = Some f -> flags_text f) /\ d <> [] /\
    c !! 1 = Some t /\ c !! 2 = Some n /\ c !! 3 = g3 /\ c !! 4 = Some d.
Proof.
  unfold re_strict, propBaseRegexp.
  intros (sB & cB & HB & H)%runs_Cat_elem.
  apply runs_Rep_elem in HB as (-> & ws & -> & _ & Hws).
  apply runs_Cat_elem in H as (sP & cP & HP & H).
  apply runs_Cat_elem in HP as (s1 & c1 & H1 & HP).
  apply runs_Group_elem in H1 as (c1' & (-> & t & -> & Ht)%type_keyword_elem & ->).
  apply runs_Cat_elem in HP as (s2 & c2 & H2 & HP).
  apply runs_Lit_elem in H2 as (? & -> & [= -> ->]).
  apply runs_Group_elem in HP as (c2' & (-> & n & -> & Hn)%name_elem & ->).
  apply runs_Cat_elem in H as (sF & cF & HF & H).
  apply docs_tail_elem in H as (d & -> & Hd & ->).
  rewrite (consumed_app n sP), (consumed_app t (" "%char :: n ++ sP)) in HF.
  apply flag_group_elem in HF as [[<- ->] | (f & -> & Hf & ->)].
  - exists ws, t, n, None, d. simpl.
    split; [done|]. do 5 (split; [done|]).
    repeat split; by simplify_map_eq.
  - exists ws, t, n, (Some f), d. simpl.
    split; [done|]. do 3 (split; [done|]).
    split; [by intros ? [= <-]|]. split; [done|].
    repeat split; by simplify_map_eq.
Qed.

(** When the rest of a pattern always prefers a run to the end of the
    input, so does the pattern. *)
Lemma runs_Cat_head_end r1 r2 :
  (forall s c s' c' l, runs r2 s c = (s', c') :: l -> s' = []) ->
  forall s c s' c' l, runs (Cat r1 r2) s c = (s', c') :: l -> s' = [].
Proof.
  intros Hend s c s' c' l. simpl.
  induction (runs r1 s c) as [|[s1 c1] l1 IH]; csimpl; [done|].
  destruct (runs r2 s1 c1) as [|[s2 c2] l2] eqn:E; simpl.
  - apply IH.
  - intros [= -> -> _]. by eapply Hend.
Qed.

Lemma spans_dot_s_last s : last (spans dot_s s) = Some [].
Proof. induction s as [|a s IH]; [done|]. simpl. by destruct (spans dot_s s). Qed.

(** The docs group is greedy and reads any byte: its preferred run takes
    all that is left. *)
Lemma docs_tail_head_end i s c s' c' l :
  runs (Cat (Lit [LF]) (Group i (Rep true 1 dot_s))) s c = (s', c') :: l ->
  s' = [].
Proof.
  rewrite runs_Cat_Lit. destruct (strip [LF] s) as [s1|]; [|done].
  destruct s1 as [|a s1]; [done|]. simpl. rewrite drop_0.
  pose proof (spans_dot_s_last s1) as Hlast.
  rewrite <- head_reverse in Hlast.
  destruct (reverse (spans dot_s s1)) as [|x xs]; [done|].
  injection Hlast as ->. by intros [= <- _ _].
Qed.

Lemma strict_head_end s0 s' c l :
  runs re_strict s0 ∅ = (s', c) :: l -> s' = [].
Proof.
  unfold re_strict. apply runs_Cat_head_end. clear.
  apply runs_Cat_head_end. apply runs_Cat_head_end.
  intros s c s' c' l. apply docs_tail_head_end.
Qed.

Lemma find_all_end re fuel prev :
  search re [] = None -> find_all fuel re [] prev = [].
Proof. intros H. destruct fuel; cbn [find_all]; [done|]. by rewrite H. Qed.

(** The first match of the first pattern, read against the block: the match
    runs to the end of the block and is made of blanks, the type, a space,
    the name, the bracketed group if there is one, a line feed and the docs;
    the groups are these pieces. *)
Lemma strict_match_shape (raw : text) (m : submatch) :
  strict_match raw = Some m ->
  exists pre ws t n g3 d,
    raw = pre ++ ws ++ t ++ T " " ++ n ++ string_of g3 ++ [LF] ++ d /\
    m = [Some (ws ++ t ++ T " " ++ n ++ string_of g3 ++ [LF] ++ d);
         Some t; Some n; g3; Some d] /\
    Forall (fun a => blank a = true) ws /\
    type_text t /\ name_text n /\
    (forall f, g3 = Some f -> flags_text f) /\ d <> [].
Proof.
  intros (s0 & s' & c & l & [pre ->] & Hr & ->)%strict_match_Some.
  pose proof (strict_head_end _ _ _ _ Hr) as ->.
  destruct (strict_run_shape s0 [] c) as
    (ws & t & n & g3 & d & Hs0 & Hws & Ht & Hn & Hf & Hd & H1 & H2 & H3 & H4).
  { rewrite Hr. by left. }
  rewrite app_nil_r in Hs0.
  exists pre, ws, t, n, g3, d.
  split; [by rewrite Hs0|]. split; [|done].
  assert (consumed s0 [] = s0) as ->.
  { rewrite <- (app_nil_r s0) at 1. by rewrite consumed_app. }
  rewrite <- Hs0.
  repeat f_equal; assumption.
Qed.

End shape_facts.

(** ** More on [Parse] *)

Section parser_extras.
Import shapes samples.
Implicit Types (raw : text) (h : heap) (m : submatch).

Lemma type_text_length (t : text) : type_text t -> 4 <= length t.
Proof.
  intros [Hk | (u & -> & _)].
  - unfold type_keywords in Hk. rewrite !elem_of_cons, elem_of_nil in Hk.
    destruct Hk as [->|[->|[->|[->|[->|[->|[->|[->|[->|[->|[]]]]]]]]]]];
      simpl; lia.
  - rewrite length_app. simpl. lia.
Qed.

Lemma Replace_head (a b : ascii) (w old new : text) :
  a <> b ->
  Replace (a :: w) (b :: old) new = a :: replace_from (b :: old) new w 0.
Proof.
  intros Hab. unfold Replace. cbn [replace_from HasPrefix].
  destruct (Ascii.eqb b a) eqn:E; [|done].
  apply Ascii.eqb_eq in E. congruence.
Qed.

Lemma Parse_Done_shape (g : PropertyParser) raw h h' p :
  Parse g raw h = Done (h', (p, None)) ->
  exists pre ws t n g3 d,
    raw = pre ++ ws ++ t ++ T " " ++ n ++ string_of g3 ++ [LF] ++ d /\
    Forall (fun a => blank a = true) ws /\
    type_text t /\ name_text n /\
    (forall f, g3 = Some f -> flags_text f) /\ d <> [] /\
    h' !! p = Some (property_from (Some t) (Some n) g3 (Some d)).
Proof.
  intros [-> (m & q & w & g1 & g2 & g3' & g4 & Hm & Hq & -> & ->)]%Parse_Done.
  destruct (strict_match_shape _ _ Hm) as
    (pre & ws & t & n & g3 & d & Hraw & [= -> -> -> -> ->] & Hws & Ht & Hn & Hf & Hd).
  exists pre, ws, t, n, g3, d.
  do 6 (split; [done|]). by rewrite lookup_insert_eq.
Qed.

Lemma name_text_LF (n : text) : name_text n -> LF ∉ n.
Proof.
  intros (a & w' & -> & Ha & _ & Hw).
  apply not_elem_of_cons. split; [by intros <- | done].
Qed.

(** What a successful [Parse] read, and from where.  The block ends with a
    header and its docs: blanks, the type, one space, the name, the
    bracketed group if there is one, a line feed, and docs that run to the
    end of the block.  The type is stored as it stands; the name loses its
    [ (optional)], which moves to the front of the docs as a marker; the
    flags come from the bracketed group and the docs are trimmed. *)
Theorem Parse_reads_block (g : PropertyParser) raw h h' p :
  Parse g raw h = Done (h', (p, None)) ->
  exists pre ws t n g3 d prop,
    raw = pre ++ ws ++ t ++ T " " ++ n ++ string_of g3 ++ [LF] ++ d /\
    Forall (fun a => blank a = true) ws /\
    type_text t /\ name_text n /\
    (forall f, g3 = Some f -> flags_text f) /\ d <> [] /\
    h' !! p = Some prop /\
    Type_ prop = t /\
    Name prop = (if Contains n (T "optional")
                 then Replace n (T " (optional)") [] else n) /\
    Flags prop = parse_flags (string_of g3) /\
    Docs prop = (if Contains n (T "optional")
                 then T "(optional) " ++ parse_docs d else parse_docs d).
Proof.
  intros (pre & ws & t & n & g3 & d & Hraw & Hws & Ht & Hn & Hf & Hd & Hp)
    %Parse_Done_shape.
  exists pre, ws, t, n, g3, d, (property_from (Some t) (Some n) g3 (Some d)).
  do 7 (split; [done|]).
  split; [done|]. unfold property_from.
  change (string_of (Some n)) with n. change (string_of (Some d)) with d.
  cbn [Name Flags Docs].
  rewrite parse_name_keeps_spaces by by apply name_text_LF.
  split; [done|]. split; [done|].
  unfold parse_name. by destruct (Contains n (T "optional")).
Qed.

Lemma Parse_reads_block_witness :
  exists pre ws t n g3 d prop,
    block_handle
      = pre ++ ws ++ t ++ T " " ++ n ++ string_of g3 ++ [LF] ++ d /\
    Forall (fun a => blank a = true) ws /\
    type_text t /\ name_text n /\
    (forall f, g3 = Some f -> flags_text f) /\ d <> [] /\
    <[model parser0 :=
        mkProperty (T "int16") (T "Handle") []
          (T "(optional) Handle of the attribute.")]> heap0 !! model parser0
      = Some prop /\
    Type_ prop = t /\
    Name prop = (if Contains n (T "optional")
                 then Replace n (T " (optional)") [] else n) /\
    Flags prop = parse_flags (string_of g3) /\
    Docs prop = (if Contains n (T "optional")
                 then T "(optional) " ++ parse_docs d else parse_docs d).
Proof.
  apply (Parse_reads_block parser0 block_handle heap0).
  vm_compute. reflexivity.
Defined.

(** A block without a line feed, without a capital letter or of fewer than
    nine bytes is no property: [Parse] returns [No property found] and
    leaves the heap as it is.  The empty block is one of them. *)
Theorem Parse_needs_a_header (g : PropertyParser) raw h :
  LF ∉ raw \/ (forall a, a ∈ raw -> upper a = false) \/ length raw < 9 ->
  Parse g raw h = Done (h, (model g, Some (T "No property found"))).
Proof.
  intros Hraw. apply Parse_not_found.
  destruct (strict_match raw) as [m|] eqn:Hm; [exfalso|done].
  destruct (strict_match_shape _ _ Hm) as
    (pre & ws & t & n & g3 & d & -> & _ & _ & Ht & (a & w & -> & Ha & Hw & _) & _ & Hd).
  destruct Hraw as [HLF | [Hup | Hlen]].
  - apply HLF. rewrite !elem_of_app. do 6 right. left. by left.
  - rewrite (Hup a) in Ha; [done|].
    rewrite !elem_of_app. do 4 right. left. by left.
  - apply type_text_length in Ht. rewrite !length_app in Hlen. simpl in Hlen.
    destruct w; [done|]. destruct d; [done|]. simpl in Hlen. lia.
Qed.

Lemma Parse_needs_a_header_witness :
  Parse parser0 [] heap0
  = Done (heap0, (model parser0, Some (T "No property found"))).
Proof.
  apply (Parse_needs_a_header parser0 [] heap0).
  left. apply not_elem_of_nil.
Defined.

(** The type that [Parse] stores is one of the ten keywords or starts with
    [array{], and the name starts with a capital letter. *)
Theorem Parse_type_and_name (g : PropertyParser) raw h h' p :
  Parse g raw h = Done (h', (p, None)) ->
  exists prop,
    h' !! p = Some prop /\
    (Type_ prop ∈ type_keywords \/
     HasPrefix (Type_ prop) (T "array{") = true) /\
    exists a w, Name prop = a :: w /\ upper a = true.
Proof.
  intros (pre & ws & t & n & g3 & d & _ & _ & Ht & Hn & _ & _ & Hp)
    %Parse_Done_shape.
  eexists. split; [done|]. unfold property_from.
  change (string_of (Some n)) with n. change (string_of (Some t)) with t.
  cbn [Type_ Name]. split.
  - destruct Ht as [?|(u & -> & _)]; [by left | right].
    apply HasPrefix_app.
  - rewrite parse_name_keeps_spaces by by apply name_text_LF.
    destruct Hn as (a & w & -> & Ha & _ & _).
    destruct (Contains (a :: w) (T "optional")).
    + eexists a, _. split; [|done]. apply Replace_head.
      intros ->. done.
    + by exists a, w.
Qed.

Lemma Parse_type_and_name_witness :
  exists prop,
    <[model parser0 :=
        mkProperty (T "int16") (T "Handle") []
          (T "(optional) Handle of the attribute.")]> heap0 !! model parser0
      = Some prop /\
    (Type_ prop ∈ type_keywords \/
     HasPrefix (Type_ prop) (T "array{") = true) /\
    exists a w, Name prop = a :: w /\ upper a = true.
Proof.
  apply (Parse_type_and_name parser0 block_handle heap0).
  vm_compute. reflexivity.
Defined.

Lemma loose_head_end (s0 s' : text) (c : caps) l :
  runs re_loose s0 ∅ = (s', c) :: l -> s' = [].
Proof.
  unfold re_loose. apply runs_Cat_head_end. clear.
  apply runs_Cat_head_end.
  intros s c s' c' l. apply docs_tail_head_end.
Qed.

Lemma FindAllSubmatch_once (re : regex) raw :
  (forall s0 s' c l, runs re s0 ∅ = (s', c) :: l -> s' = []) ->
  search re [] = None ->
  length (FindAllSubmatch re raw) <= 1.
Proof.
  intros Hend Hnil. unfold FindAllSubmatch. cbn [find_all].
  destruct (search re raw) as [[[m s0] s']|] eqn:E; [|simpl; lia].
  apply search_Some in E as (_ & c & l & Hr & _).
  apply Hend in Hr as ->.
  destruct (length [] <? length s0).
  - rewrite find_all_end by done. simpl. lia.
  - case_decide; simpl; lia.
Qed.

(** Neither pattern matches a block more than once: the docs group takes
    all that follows the first header, further headers included, so
    [matches2[0]] is the only match there is. *)
Theorem Parse_one_match raw :
  length (FindAllSubmatch re_strict raw) <= 1 /\
  length (FindAllSubmatch re_loose raw) <= 1.
Proof.
  split.
  - apply FindAllSubmatch_once; [apply strict_head_end | by vm_compute].
  - apply FindAllSubmatch_once; [apply loose_head_end | by vm_compute].
Qed.

(** [Parse] writes to the object of its parser and to nothing else. *)
Lemma Parse_frame (g : PropertyParser) raw h h' r (l : loc) :
  Parse g raw h = Done (h', r) -> l <> model g -> h' !! l = h !! l.
Proof.
  destruct r as [p [e|]].
  - by intros [_ (_ & -> & _)]%Parse_Done.
  - intros [_ (m & q & w & g1 & g2 & g3 & g4 & _ & _ & _ & ->)]%Parse_Done Hl.
    by rewrite lookup_insert_ne.
Qed.

Lemma Parse_returns (g : PropertyParser) raw h q :
  h !! model g = Some q -> exists h' r, Parse g raw h = Done (h', r).
Proof.
  intros Hq. destruct (strict_match raw) as [m|] eqn:Hm.
  - destruct (Parse_found _ _ _ _ _ Hm Hq) as (? & ? & ? & ? & ? & _ & ->).
    by eexists _, _.
  - rewrite Parse_not_found by done. by eexists _, _.
Qed.

(** Parsers made one after the other by [NewPropertyParser] have different
    objects, none of them an object that was there before.  [Parse] on the
    first parser returns and leaves every other object as it was, so the
    object of the second parser still holds the zero values. *)
Theorem parsers_do_not_share (debug1 debug2 : bool) (h0 : heap) raw :
  let g1 := (NewPropertyParser debug1 h0).1 in
  let h1 := (NewPropertyParser debug1 h0).2 in
  let g2 := (NewPropertyParser debug2 h1).1 in
  let h2 := (NewPropertyParser debug2 h1).2 in
  model g1 <> model g2 /\
  h0 !! model g1 = None /\ h0 !! model g2 = None /\
  exists h' r,
    Parse g1 raw h2 = Done (h', r) /\
    h' !! model g2 = Some zero_Property /\
    forall l, l <> model g1 -> h' !! l = h2 !! l.
Proof.
  intros g1 h1 g2 h2. subst g1 h1 g2 h2. simpl.
  set (l1 := fresh (dom h0)).
  set (l2 := fresh (dom (<[l1 := zero_Property]> h0))).
  assert (l1 ∉ dom h0) as H1 by apply is_fresh.
  assert (l2 ∉ dom (<[l1 := zero_Property]> h0)) as H2 by apply is_fresh.
  rewrite dom_insert_L in H2.
  assert (l1 <> l2) as Hne by set_solver.
  split; [done|]. split; [by apply not_elem_of_dom|].
  split; [apply not_elem_of_dom; set_solver|].
  destruct (Parse_returns (mkPropertyParser l1 debug1) raw
              (<[l2 := zero_Property]> (<[l1 := zero_Property]> h0))
              zero_Property) as (h' & r & HP).
  { cbn [model]. rewrite lookup_insert_ne by done. apply lookup_insert_eq. }
  exists h', r. split; [done|]. split.
  - rewrite (Parse_frame _ _ _ _ _ l2 HP) by done. apply lookup_insert_eq.
  - intros l Hl. by eapply Parse_frame.
Qed.

Lemma parsers_do_not_share_witness :
  let g1 := (NewPropertyParser false ∅).1 in
  let h1 := (NewPropertyParser false ∅).2 in
  let g2 := (NewPropertyParser true h1).1 in
  let h2 := (NewPropertyParser true h1).2 in
  model g1 <> model g2 /\
  (∅ : heap) !! model g1 = None /\ (∅ : heap) !! model g2 = None /\
  exists h' r,
    Parse g1 block_readonly h2 = Done (h', r) /\
    h' !! model g2 = Some zero_Property /\
    forall l, l <> model g1 -> h' !! l = h2 !! l.
Proof.
  apply (parsers_do_not_share false true ∅ block_readonly).
Defined.

(** Parsing a block a second time with the same parser changes nothing
    and returns the same: what [Parse] leaves depends on the block alone,
    not on what the object held. *)
Theorem Parse_again (g : PropertyParser) raw h h1 r :
  Parse g raw h = Done (h1, r) -> Parse g raw h1 = Done (h1, r).
Proof.
  destruct r as [p [e|]].
  - intros HP. by destruct (Parse_Done _ _ _ _ _ _ HP) as [_ (_ & -> & _)].
  - intros [-> (m & q & w & g1 & g2 & g3 & g4 & Hm & Hq & -> & ->)]%Parse_Done.
    destruct (Parse_found g raw (<[model g := property_from g1 g2 g3 g4]> h)
                [w; g1; g2; g3; g4] (property_from g1 g2 g3 g4) Hm)
      as (? & ? & ? & ? & ? & [= <- <- <- <- <-] & ->).
    { apply lookup_insert_eq. }
    by rewrite insert_insert_eq.
Qed.

Lemma Parse_again_witness :
  Parse parser0 block_readonly
    (<[model parser0 :=
         mkProperty (T "string") (T "Address") [FlagReadOnly]
           (T "The Bluetooth device address.")]> heap0)
  = Done (<[model parser0 :=
              mkProperty (T "string") (T "Address") [FlagReadOnly]
                (T "The Bluetooth device address.")]> heap0,
          (model parser0, None)).
Proof.
  apply (Parse_again parser0 block_readonly heap0).
  vm_compute. reflexivity.
Defined.

End parser_extras.

(** ** The preferred run of the first pattern *)

Section head_facts.
Import shapes.
Implicit Types (r K : regex) (s w u : text) (c : caps).

Lemma bind_fmap_fuse {A B C} (f : A -> B) (g : B -> list C) (l : list A) :
  (f <$> l) ≫= g = l ≫= (fun x => g (f x)).
Proof. induction l as [|x l IH]; [done|]. csimpl. by rewrite IH. Qed.

Lemma bind_bind_fuse {A B C} (f : A -> list B) (g : B -> list C) (l : list A) :
  (l ≫= f) ≫= g = l ≫= (fun x => f x ≫= g).
Proof.
  induction l as [|x l IH]; [done|]. csimpl. by rewrite bind_app, IH.
Qed.

Lemma bind_ext_list {A B} (f g : A -> list B) (l : list A) :
  (forall x, f x = g x) -> l ≫= f = l ≫= g.
Proof. intros H. induction l as [|x l IH]; [done|]. csimpl. by rewrite H, IH. Qed.

Lemma runs_Cat_assoc r1 r2 r3 s c :
  runs (Cat (Cat r1 r2) r3) s c = runs (Cat r1 (Cat r2 r3)) s c.
Proof. simpl. apply bind_bind_fuse. Qed.

Lemma runs_Cat_ext r K K' s c :
  (forall s' c', runs K s' c' = runs K' s' c') ->
  runs (Cat r K) s c = runs (Cat r K') s c.
Proof. intros H. simpl. apply bind_ext_list. intros [s' c']. apply H. Qed.

Lemma spans_stop p u s :
  Forall (fun a => p a = true) u -> stops p s ->
  exists l, spans p (u ++ s) = l ++ [s] /\ length l = length u.
Proof.
  intros Hu Hs. induction Hu as [|a u Ha Hu IH].
  - exists []. split; [|done]. destruct s as [|b s]; [done|].
    simpl in *. by rewrite Hs.
  - destruct IH as (l & Hl & Hlen). exists ((a :: u ++ s) :: l).
    split; [|by simpl; rewrite Hlen].
    change ((a :: u) ++ s) with (a :: (u ++ s)).
    cbn [spans]. rewrite Ha. by rewrite Hl.
Qed.

Lemma head_runs_greedy least p u s c :
  Forall (fun a => p a = true) u -> stops p s -> least <= length u ->
  head (runs (Rep true least p) (u ++ s) c) = Some (s, c).
Proof.
  intros Hu Hs Hl. destruct (spans_stop p u s Hu Hs) as (l & Heq & Hlen).
  cbn [runs]. rewrite Heq, drop_app_le by lia.
  by rewrite reverse_app.
Qed.

Lemma head_bind_Some {A B} (f : A -> list B) (l : list A) x y :
  head l = Some x -> head (f x) = Some y -> head (l ≫= f) = Some y.
Proof.
  destruct l as [|x' l]; [done|]. intros [= ->] Hy. simpl.
  by destruct (f x).
Qed.

Lemma head_runs_Cat r1 r2 s c s1 c1 y :
  head (runs r1 s c) = Some (s1, c1) -> head (runs r2 s1 c1) = Some y ->
  head (runs (Cat r1 r2) s c) = Some y.
Proof. intros H1 H2. simpl. by eapply head_bind_Some. Qed.

Lemma head_runs_Group i r s c s' c' :
  head (runs r s c) = Some (s', c') ->
  head (runs (Group i r) s c) = Some (s', <[i := consumed s s']> c').
Proof. simpl. by destruct (runs r s c) as [|[]]; intros [= -> ->]. Qed.

Lemma strip_app w s : strip w (w ++ s) = Some s.
Proof.
  induction w as [|a w IH]; [done|]. simpl. by rewrite Ascii.eqb_refl.
Qed.

Lemma head_bind_spans {B} p (g : text -> list B) w s y :
  Forall (fun a => p a = true) w ->
  (forall w', w' <> [] -> w' `suffix_of` w -> g (w' ++ s) = []) ->
  head (g s) = Some y ->
  head (spans p (w ++ s) ≫= g) = Some y.
Proof.
  intros Hw. induction Hw as [|a w Ha Hw IH]; intros Hfail Hy.
  - destruct s as [|b s]; simpl.
    + by destruct (g []).
    + destruct (g (b :: s)); [done|]. done.
  - change ((a :: w) ++ s) with (a :: (w ++ s)). cbn [spans]. rewrite Ha.
    cbn [mbind list_bind]. change (a :: w ++ s) with ((a :: w) ++ s).
    rewrite (Hfail (a :: w)) by done. simpl. apply IH; [|done].
    intros w' Hne Hsuf. apply Hfail; [done|]. by apply suffix_cons_r.
Qed.

(** A lazy repetition in front of [K]: [K] gets the first end at which it
    succeeds. *)
Lemma head_runs_Cat_lazy p K w s c y :
  Forall (fun a => p a = true) w ->
  (forall w', w' <> [] -> w' `suffix_of` w -> runs K (w' ++ s) c = []) ->
  head (runs K s c) = Some y ->
  head (runs (Cat (Rep false 0 p) K) (w ++ s) c) = Some y.
Proof.
  intros Hw Hfail Hy. cbn [runs]. rewrite drop_0, bind_fmap_fuse.
  by apply (head_bind_spans p (fun s' => runs K s' c)).
Qed.


Lemma runs_Cat_Group i r K s c :
  runs (Cat (Group i r) K) s c
  = runs r s c ≫= (fun sc => runs K sc.1 (<[i := consumed s sc.1]> sc.2)).
Proof. cbn [runs]. by rewrite bind_fmap_fuse. Qed.

(** The type keywords start with a letter. *)
Lemma type_after_blank K b s c :
  blank b = true -> runs (Cat (Group 1 type_keyword) K) (b :: s) c = [].
Proof.
  intros Hb. unfold blank in Hb. apply orb_true_iff in Hb.
  destruct Hb as [->%Ascii.eqb_eq | ->%Ascii.eqb_eq]; reflexivity.
Qed.

Lemma runs_type_array s c :
  runs type_keyword (T "array{" ++ s) c = (fun s' => (s', c)) <$> spans dot s.
Proof.
  unfold type_keyword. cbn -[spans]. by rewrite drop_0, app_nil_r.
Qed.

Lemma not_LF_dot w : LF ∉ w -> Forall (fun a => dot a = true) w.
Proof.
  intros Hw. apply Forall_forall. intros a Ha. unfold dot.
  destruct (Ascii.eqb a LF) eqn:E; [|done].
  apply Ascii.eqb_eq in E as ->. done.
Qed.

Lemma strip_head_None a w s b :
  a <> b -> strip (a :: w) (b :: s) = None.
Proof.
  intros Hab. simpl. destruct (Ascii.eqb a b) eqn:E; [|done].
  by apply Ascii.eqb_eq in E.
Qed.

Lemma suffix_head_elem {A} (a : A) (w' w : list A) :
  (a :: w') `suffix_of` w -> a ∈ w.
Proof. intros [k ->]. rewrite elem_of_app. right. by left. Qed.

(** The type group in front of the space and [K]: the type is a keyword, or
    [array{] and what follows up to the first space. *)
Lemma head_type K t rest c y :
  type_text t -> SP ∉ t ->
  head (runs K rest (<[1 := t]> c)) = Some y ->
  head (runs (Cat (Group 1 type_keyword) (Cat (Lit (T " ")) K))
          (t ++ T " " ++ rest) c) = Some y.
Proof.
  intros [Hk | (u & -> & Hu)] Hsp Hy.
  - rewrite <- (consumed_app t (T " " ++ rest)) in Hy. rewrite runs_Cat_Group.
    unfold type_keywords in Hk. rewrite !elem_of_cons, elem_of_nil in Hk.
    destruct Hk as [->|[->|[->|[->|[->|[->|[->|[->|[->|[->|[]]]]]]]]]]];
      unfold type_keyword; cbn -[consumed]; rewrite !app_nil_r; exact Hy.
  - rewrite runs_Cat_Group, <- (app_assoc (T "array{") u), runs_type_array.
    rewrite bind_fmap_fuse. cbn [fst snd].
    apply (head_bind_spans dot
             (fun s' => runs (Cat (Lit (T " ")) K) s'
                          (<[1 := consumed (T "array{" ++ u ++ T " " ++ rest)
                                           s']> c))).
    + by apply not_LF_dot.
    + intros [|a w'] Hne Hsuf; [done|]. rewrite runs_Cat_Lit.
      change ((a :: w') ++ T " " ++ rest) with (a :: w' ++ T " " ++ rest).
      change (T " ") with [SP]. rewrite strip_head_None; [done|].
      intros <-. apply Hsp. rewrite elem_of_app. right.
      by eapply suffix_head_elem.
    + rewrite runs_Cat_Lit, strip_app.
      rewrite (app_assoc (T "array{") u), consumed_app. exact Hy.
Qed.

Lemma head_runs_Lit w s c : head (runs (Lit w) (w ++ s) c) = Some (s, c).
Proof. simpl. by rewrite strip_app. Qed.

Lemma runs_Cat_Opt r K s c :
  runs (Cat (Opt r) K) s c = runs (Cat r K) s c ++ runs K s c.
Proof. cbn [runs]. rewrite bind_app. csimpl. by rewrite app_nil_r. Qed.

Lemma head_app_Some {A} (l1 l2 : list A) y :
  head l1 = Some y -> head (l1 ++ l2) = Some y.
Proof. by destruct l1. Qed.

Lemma header_end_fails s c :
  strip (T " [") s = None -> strip [LF] s = None -> runs header_end s c = [].
Proof.
  intros H1 H2. unfold header_end, flag_group.
  rewrite runs_Cat_Opt, runs_Cat_Group, !runs_Cat_Lit, H1, H2. done.
Qed.

Lemma runs_name a b s c :
  upper a = true -> dot b = true ->
  runs (Cat (Class upper) (Rep false 1 dot)) (a :: b :: s) c
  = (fun s' => (s', c)) <$> spans dot s.
Proof.
  intros Ha Hb. cbn [runs]. rewrite Ha. csimpl. rewrite app_nil_r.
  cbn [spans]. by rewrite Hb.
Qed.

(** The name group in front of [header_end]: a name without a bracket is
    read up to the end of its line, or up to the bracketed group. *)
Lemma head_name n s c y :
  name_text n -> "["%char ∉ n -> no_bracket s ->
  head (runs header_end s (<[2 := n]> c)) = Some y ->
  head (runs (Cat (Group 2 (Cat (Class upper) (Rep false 1 dot))) header_end)
          (n ++ s) c) = Some y.
Proof.
  intros (a & w & -> & Ha & Hw & HLF) Hbr Hs Hy.
  destruct w as [|b w]; [done|].
  apply not_elem_of_cons in HLF as [Hb HLF].
  apply not_elem_of_cons in Hbr as [_ [_ Hbr]%not_elem_of_cons].
  rewrite runs_Cat_Group.
  change ((a :: b :: w) ++ s) with (a :: b :: w ++ s).
  rewrite runs_name; [|done|].
  2:{ unfold dot. destruct (Ascii.eqb b LF) eqn:E; [|done].
      by apply Ascii.eqb_eq in E. }
  rewrite bind_fmap_fuse. cbn [fst snd].
  apply (head_bind_spans dot
           (fun s' => runs header_end s'
                        (<[2 := consumed (a :: b :: w ++ s) s']> c))).
  - by apply not_LF_dot.
  - intros [|x w'] Hne Hsuf; [done|].
    assert (x ∈ w) as Hx by by eapply suffix_head_elem.
    change ((x :: w') ++ s) with (x :: w' ++ s).
    apply header_end_fails.
    + change (T " [") with [SP; "["%char].
      cbn [strip]. destruct (Ascii.eqb SP x); [|done].
      destruct w' as [|x' w'].
      * destruct s as [|x' s]; [done|]. cbn [app].
        destruct (Ascii.eqb "[" x') eqn:E; [|done].
        apply Ascii.eqb_eq in E as <-. by destruct (Hs s).
      * cbn [app]. destruct (Ascii.eqb "[" x') eqn:E; [|done].
        apply Ascii.eqb_eq in E as <-. destruct Hbr.
        destruct Hsuf as [k ->]. rewrite elem_of_app. right.
        right. by left.
    + apply strip_head_None. by intros <-.
  - change (a :: b :: w ++ s) with ((a :: b :: w) ++ s).
    by rewrite consumed_app.
Qed.

Lemma head_docs d c :
  d <> [] ->
  head (runs (Cat (Lit [LF]) (Group 4 (Rep true 1 dot_s))) ([LF] ++ d) c)
  = Some ([], <[4 := d]> c).
Proof.
  intros Hd. rewrite runs_Cat_Lit, strip_app.
  rewrite <- (consumed_app d []) at 2. rewrite app_nil_r.
  apply head_runs_Group. rewrite <- (app_nil_r d) at 1.
  apply head_runs_greedy.
  - apply Forall_forall. done.
  - done.
  - destruct d; [done|]. simpl. lia.
Qed.

(** The bracketed group, when there is one, and the docs. *)
Lemma head_header_end (f : option text) d c :
  (forall fl, f = Some fl -> flags_text fl) -> d <> [] ->
  head (runs header_end (string_of f ++ [LF] ++ d) c)
  = Some ([], <[4 := d]> (match f with Some fl => <[3 := fl]> c | None => c end)).
Proof.
  intros Hf Hd. unfold header_end, flag_group. rewrite runs_Cat_Opt.
  destruct f as [fl|].
  - destruct (Hf fl eq_refl) as (u & v & -> & Hu & Hv).
    apply head_app_Some. change (string_of (Some ?x)) with x.
    eapply head_runs_Cat; [|by apply head_docs].
    rewrite <- (consumed_app (T " [" ++ u ++ T "]" ++ v) ([LF] ++ d)) at 2.
    apply head_runs_Group.
    rewrite <- !app_assoc.
    eapply head_runs_Cat; [apply head_runs_Lit|].
    eapply head_runs_Cat.
    { apply head_runs_greedy; [|done|lia].
      apply Forall_forall. intros a Ha. unfold not_rbracket.
      destruct (Ascii.eqb a "]") eqn:E; [|done].
      apply Ascii.eqb_eq in E as ->. done. }
    eapply head_runs_Cat; [apply head_runs_Lit|].
    apply head_runs_greedy; [by apply not_LF_dot|done|lia].
  - change (string_of None ++ [LF] ++ d) with ([LF] ++ d).
    rewrite runs_Cat_Group, runs_Cat_Lit.
    change (strip (T " [") ([LF] ++ d)) with (@None text).
    by apply head_docs.
Qed.

Lemma runs_re_strict s c :
  runs re_strict s c
  = runs (Cat (Rep false 0 blank)
         (Cat (Group 1 type_keyword)
         (Cat (Lit (T " "))
         (Cat (Group 2 (Cat (Class upper) (Rep false 1 dot))) header_end))))
      s c.
Proof.
  unfold re_strict, propBaseRegexp, header_end.
  apply runs_Cat_ext. intros s1 c1. rewrite runs_Cat_assoc.
  apply runs_Cat_ext. intros s2 c2. apply runs_Cat_assoc.
Qed.

Lemma search_here re s m s' :
  match_here re s = Some (m, s') -> search re s = Some (m, s, s').
Proof. intros H. destruct s; simpl; by rewrite H. Qed.

(** The preferred run of the first pattern on a well-formed header. *)
Lemma strict_run_head ws t n (f : option text) d :
  Forall (fun a => blank a = true) ws ->
  type_text t -> SP ∉ t ->
  name_text n -> "["%char ∉ n ->
  (forall fl, f = Some fl -> flags_text fl) ->
  d <> [] ->
  head (runs re_strict (ws ++ t ++ T " " ++ n ++ string_of f ++ [LF] ++ d) ∅)
  = Some ([], <[4 := d]>
                (match f with
                 | Some fl => <[3 := fl]> (<[2 := n]> (<[1 := t]> ∅))
                 | None => <[2 := n]> (<[1 := t]> ∅)
                 end)).
Proof.
  intros Hws Ht Hsp Hn Hbr Hf Hd. rewrite runs_re_strict.
  apply head_runs_Cat_lazy; [done| |].
  { intros [|x w'] Hne Hsuf; [done|]. apply type_after_blank.
    rewrite Forall_forall in Hws. apply Hws. by eapply suffix_head_elem. }
  apply head_type; [done..|].
  apply head_name; [done..| |].
  { intros s' Hs'. destruct f as [fl|].
    - destruct (Hf fl eq_refl) as (u & v & -> & _). discriminate Hs'.
    - discriminate Hs'. }
  by apply head_header_end.
Qed.

Lemma strict_match_header ws t n (f : option text) d :
  Forall (fun a => blank a = true) ws ->
  type_text t -> SP ∉ t ->
  name_text n -> "["%char ∉ n ->
  (forall fl, f = Some fl -> flags_text fl) ->
  d <> [] ->
  let raw := ws ++ t ++ T " " ++ n ++ string_of f ++ [LF] ++ d in
  strict_match raw = Some [Some raw; Some t; Some n; f; Some d].
Proof.
  intros Hws Ht Hsp Hn Hbr Hf Hd raw.
  pose proof (strict_run_head ws t n f d Hws Ht Hsp Hn Hbr Hf Hd) as Hrun.
  fold raw in Hrun.
  unfold strict_match. rewrite FindAllSubmatch_head.
  rewrite (search_here re_strict raw
             [Some raw; Some t; Some n; f; Some d] []); [done|].
  unfold match_here. destruct (runs re_strict raw ∅) as [|[s' c] l]; [done|].
  injection Hrun as -> ->. f_equal. f_equal. unfold pad.
  rewrite <- (app_nil_r raw) at 1. rewrite consumed_app.
  change (NumSubexp re_strict) with 4. cbn [seq fmap list_fmap].
  destruct f as [fl|]; repeat f_equal; by simplify_map_eq.
Qed.

End head_facts.

(** ** [Parse] on a well-formed header *)

Section header_facts.
Import shapes samples.

(** A block that is a header and its docs parses to that header.  The
    block is blanks, a type without a space, one space, a name without an
    opening bracket, a bracketed group or none, a line feed and docs that
    are not empty; [Parse] then returns no error and stores the type as it
    stands, the name and the docs with the [optional] rule applied, and the
    flags of the bracketed group. *)
Theorem Parse_accepts_header (g : PropertyParser) (h : heap) (q : Property)
  (ws t n : text) (f : option text) (d : text) :
  h !! model g = Some q ->
  Forall (fun a => blank a = true) ws ->
  type_text t -> SP ∉ t ->
  name_text n -> "["%char ∉ n ->
  (forall fl, f = Some fl -> flags_text fl) ->
  d <> [] ->
  Parse g (ws ++ t ++ T " " ++ n ++ string_of f ++ [LF] ++ d) h
  = Done (<[model g :=
              mkProperty t
                (if Contains n (T "optional")
                 then Replace n (T " (optional)") [] else n)
                (parse_flags (string_of f))
                (if Contains n (T "optional")
                 then T "(optional) " ++ parse_docs d else parse_docs d)]> h,
          (model g, None)).
Proof.
  intros Hq Hws Ht Hsp Hn Hbr Hf Hd.
  pose proof (strict_match_header ws t n f d Hws Ht Hsp Hn Hbr Hf Hd) as Hm.
  cbv zeta in Hm.
  destruct (Parse_found g _ h _ q Hm Hq)
    as (w & g1 & g2 & g3 & g4 & [= <- <- <- <- <-] & ->).
  do 3 f_equal. unfold property_from.
  change (string_of (Some n)) with n. change (string_of (Some d)) with d.
  change (string_of (Some t)) with t.
  f_equal.
  - apply parse_name_keeps_spaces. by apply name_text_LF.
  - unfold parse_name. by destruct (Contains n (T "optional")).
Qed.

Lemma Parse_accepts_header_witness :
  Parse parser0
    ([TAB; TAB] ++ T "string" ++ T " " ++ T "Address"
     ++ string_of (Some (T " [readonly]")) ++ [LF]
     ++ [TAB; TAB; TAB] ++ T "The Bluetooth device address." ++ [LF])
    heap0
  = Done (<[model parser0 :=
              mkProperty (T "string")
                (if Contains (T "Address") (T "optional")
                 then Replace (T "Address") (T " (optional)") []
                 else T "Address")
                (parse_flags (string_of (Some (T " [readonly]"))))
                (if Contains (T "Address") (T "optional")
                 then T "(optional) "
                      ++ parse_docs ([TAB; TAB; TAB]
                                     ++ T "The Bluetooth device address."
                                     ++ [LF])
                 else parse_docs ([TAB; TAB; TAB]
                                  ++ T "The Bluetooth device address."
                                  ++ [LF]))]> heap0,
          (model parser0, None)).
Proof.
  apply (Parse_accepts_header parser0 heap0 zero_Property
           [TAB; TAB] (T "string") (T "Address") (Some (T " [readonly]"))
           ([TAB; TAB; TAB] ++ T "The Bluetooth device address." ++ [LF])).
  - reflexivity.
  - repeat constructor.
  - left. by apply (bool_decide_unpack _).
  - by apply (bool_decide_unpack _).
  - exists "A"%char, (T "ddress").
    split; [reflexivity|]. split; [reflexivity|]. split; [done|].
    by apply (bool_decide_unpack _).
  - by apply (bool_decide_unpack _).
  - intros fl [= <-]. exists (T "readonly"), [].
    split; [reflexivity|]. split; [|apply not_elem_of_nil].
    by apply (bool_decide_unpack _).
  - done.
Defined.

End header_facts.

(** ** Flag lists *)

Section flag_list_facts.
Implicit Types (s a b w cur sep : text) (bs : list text).

Lemma split_from_no_sep (c : ascii) a s cur :
  c ∉ a ->
  split_from [c] (a ++ s) cur 0 = split_from [c] s (reverse a ++ cur) 0.
Proof.
  revert cur. induction a as [|x a IH]; intros cur Ha; [done|].
  apply not_elem_of_cons in Ha as [Hx Ha].
  change ((x :: a) ++ s) with (x :: (a ++ s)). cbn [split_from HasPrefix].
  destruct (Ascii.eqb c x) eqn:E.
  { apply Ascii.eqb_eq in E. congruence. }
  cbn [andb]. rewrite IH by done. by rewrite reverse_cons, <- app_assoc.
Qed.

Lemma split_from_sep (c : ascii) s cur :
  split_from [c] (c :: s) cur 0 = reverse cur :: split_from [c] s [] 0.
Proof. cbn [split_from HasPrefix]. by rewrite Ascii.eqb_refl. Qed.

(** The pieces of a list written with a comma and a space between its
    items: every piece but the first keeps the space. *)
Lemma Split_comma_space a bs :
  ","%char ∉ a -> Forall (fun b => ","%char ∉ b) bs ->
  Split (a ++ mjoin ((fun b => T ", " ++ b) <$> bs)) (T ",")
  = a :: ((fun b => SP :: b) <$> bs).
Proof.
  intros Ha Hbs. unfold Split. change (T ",") with [","%char].
  rewrite split_from_no_sep by done. rewrite app_nil_r.
  rewrite <- (reverse_involutive a) at 2.
  generalize (reverse a). clear Ha. intros cur.
  induction Hbs as [|b bs Hb Hbs IH] in cur |- *; [done|].
  csimpl. f_equal. rewrite split_from_no_sep by done.
  etrans; [apply IH|]. by rewrite reverse_app, reverse_involutive.
Qed.

Lemma split_from_head sep s cur skip :
  exists u rest, split_from sep s cur skip = (reverse cur ++ u) :: rest.
Proof.
  revert cur skip. induction s as [|x s IH]; intros cur skip.
  - exists [], []. by rewrite app_nil_r.
  - cbn [split_from]. destruct skip as [|k]; [|apply IH].
    destruct (HasPrefix (x :: s) sep).
    + eexists [], _. by rewrite app_nil_r.
    + destruct (IH (x :: cur) 0) as (u & rest & ->).
      exists (x :: u), rest. by rewrite reverse_cons, <- app_assoc.
Qed.

(** A piece that starts with a space names no flag. *)
Lemma flag_of_token_space w : flag_of_token (SP :: w) = FlagNone.
Proof.
  assert (exists u, cut_bracket (SP :: w) = SP :: u) as [u Hu].
  { unfold cut_bracket. destruct (Contains (SP :: w) (T "]")); [|by eexists].
    unfold Split.
    change (split_from (T "]") (SP :: w) [] 0)
      with (split_from (T "]") w [SP] 0).
    destruct (split_from_head (T "]") w [SP] 0) as (u & rest & ->).
    by eexists. }
  unfold flag_of_token. rewrite Hu. unfold flag_switch.
  by repeat case_decide.
Qed.

Lemma collect_flags_spaces bs flags :
  collect_flags ((fun b => SP :: b) <$> bs) flags = flags.
Proof.
  induction bs as [|b bs IH] in flags |- *; [done|].
  csimpl. by rewrite flag_of_token_space, IH.
Qed.

(** In a flag list written with a space after each comma, only the first
    item can name a flag.  [Split] leaves each later piece with its leading
    space and the [switch] compares the pieces as they are, so
    [[readwrite, experimental]] gives the flag of [readwrite] alone. *)
Theorem flags_after_comma_space (raw a : text) (bs : list text) :
  Trim raw (T "[] ") = a ++ mjoin ((fun b => T ", " ++ b) <$> bs) ->
  ","%char ∉ a ->
  Forall (fun b => ","%char ∉ b) bs ->
  parse_flags raw
  = if positive_flag (flag_of_token a) then [flag_of_token a] else [].
Proof.
  intros Hraw Ha Hbs. unfold parse_flags.
  rewrite Hraw, Split_comma_space by done.
  cbn [collect_flags]. rewrite collect_flags_spaces.
  by destruct (positive_flag (flag_of_token a)).
Qed.

Lemma flags_after_comma_space_witness :
  parse_flags (T " [readwrite, experimental]")
  = if positive_flag (flag_of_token (T "readwrite"))
    then [flag_of_token (T "readwrite")] else [].
Proof.
  apply (flags_after_comma_space (T " [readwrite, experimental]")
           (T "readwrite") [T "experimental"]).
  - reflexivity.
  - by apply (bool_decide_unpack _).
  - repeat constructor. by apply (bool_decide_unpack _).
Defined.

End flag_list_facts.

(** ** The subscriptions of a generated client *)

Section subscription_facts.
Import subscriptions.
Implicit Types (a : Subscriber).

(** [GetPropertiesSignal] registers once.  A call that returns a channel
    leaves the client such that every later call returns the same channel
    without a call of [Register], whatever [Register] would answer; a call
    that returns an error leaves the client as it was, so the next call
    tries again. *)
Theorem GetPropertiesSignal_registers_once answer a a1 acts s err :
  GetPropertiesSignal answer a = (a1, acts, (s, err)) ->
  (forall ch, s = Some ch ->
     forall answer', GetPropertiesSignal answer' a1 = (a1, [], (Some ch, None))) /\
  (err <> None -> a1 = a /\ s = None /\ acts = [ClientRegister]) /\
  (acts = [] <-> propertiesSignal a <> None).
Proof.
  unfold GetPropertiesSignal.
  destruct (propertiesSignal a) as [s0|] eqn:Ha.
  - intros [= <- <- <- <-]. split; [|split; [done|]].
    + intros ch [= <-] answer'. by rewrite Ha.
    + done.
  - destruct answer as [s' [e|]]; intros [= <- <- <- <-].
    + split; [done|]. split; [done|]. split; [done|]. by intros [].
    + split; [|split; [done|split; [done|by intros []]]].
      intros ch -> answer'. done.
Qed.

Lemma GetPropertiesSignal_registers_once_witness :
  (forall ch, Some 7 = Some ch ->
     forall answer',
       GetPropertiesSignal answer' (mkSubscriber (Some 7) None None None)
       = (mkSubscriber (Some 7) None None None, [], (Some ch, None))) /\
  (@None error <> None ->
     mkSubscriber (Some 7) None None None = mkSubscriber None None None None /\
     Some 7 = None /\ [ClientRegister] = [ClientRegister]) /\
  ([ClientRegister] = [] <->
     propertiesSignal (mkSubscriber None None None None) <> None).
Proof.
  apply (GetPropertiesSignal_registers_once (Some 7, None)
           (mkSubscriber None None None None)).
  reflexivity.
Defined.

(** [unregisterPropertiesSignal] sends the nil sentinel on the registered
    channel, once: after it no channel is registered, and a second call
    does nothing. *)
Theorem unregisterPropertiesSignal_once a :
  propertiesSignal (unregisterPropertiesSignal a).1 = None /\
  (unregisterPropertiesSignal a).2
    = from_option (fun s => [SendNil s]) [] (propertiesSignal a) /\
  unregisterPropertiesSignal (unregisterPropertiesSignal a).1
    = ((unregisterPropertiesSignal a).1, []).
Proof.
  unfold unregisterPropertiesSignal.
  destruct (propertiesSignal a) as [s|] eqn:Ha; simpl; [done|].
  by rewrite Ha.
Qed.

(** [Close] ends with the disconnect, sends the sentinel of the properties
    subscription if there is one, and leaves the object manager
    subscription alone: its channel stays registered and no [Unregister] is
    called.  A second [Close] only disconnects again. *)
Theorem Close_keeps_manager_subscription a :
  last (Close a).2 = Some ClientDisconnect /\
  objectManagerSignal (Close a).1 = objectManagerSignal a /\
  objectManager (Close a).1 = objectManager a /\
  (forall om ch, ManagerUnregister om ch ∉ (Close a).2) /\
  (forall ch, SendNil ch ∈ (Close a).2 <-> propertiesSignal a = Some ch) /\
  Close (Close a).1 = ((Close a).1, [ClientDisconnect]).
Proof.
  unfold Close, unregisterPropertiesSignal.
  destruct (propertiesSignal a) as [s|] eqn:Ha; simpl.
  - split; [done|]. split; [done|]. split; [done|]. split; [|split].
    + intros om ch. rewrite !elem_of_cons, elem_of_nil. by intros [|[|]].
    + intros ch. rewrite !elem_of_cons, elem_of_nil. split.
      * by intros [[= ->]|[|]].
      * intros [= ->]. by left.
    + done.
  - rewrite Ha. simpl. split; [done|]. split; [done|]. split; [done|].
    split; [|split].
    + intros om ch. rewrite !elem_of_cons, elem_of_nil. by intros [|].
    + intros ch. rewrite !elem_of_cons, elem_of_nil. split; [by intros [|]|done].
    + done.
Qed.

(** The closure [cancel] is idempotent: the first call on a registered
    client sends the sentinel and then unregisters the channel at the object
    manager, a second call does nothing.  The object manager is kept. *)
Theorem cancel_once a :
  objectManagerSignal (cancel a).1 = None /\
  objectManager (cancel a).1 = objectManager a /\
  (cancel a).2
    = from_option
        (fun s => [SendNil s; ManagerUnregister (objectManager a) s]) []
        (objectManagerSignal a) /\
  cancel (cancel a).1 = ((cancel a).1, []).
Proof.
  unfold cancel.
  destruct (objectManagerSignal a) as [s|] eqn:Ha; simpl; [done|].
  by rewrite Ha.
Qed.

(** The object manager is looked up at most once.  A call of
    [GetObjectManagerSignal] on a client without a manager, to which
    [bluez.GetObjectManager] answers with a manager, stores it even when the
    registration then fails; after that, and after a [cancel], every call
    goes straight to [Register] without a call of [bluez.GetObjectManager],
    and the manager stays. *)
Theorem GetObjectManagerSignal_keeps_manager om registered a a1 acts res :
  objectManagerSignal a = None ->
  objectManager a = None ->
  GetObjectManagerSignal (Some om, None) registered a = (a1, acts, res) ->
  objectManager a1 = Some om /\
  forall found' registered',
    (GetObjectManager
       ∉ (GetObjectManagerSignal found' registered' a1).1.2) /\
    (GetObjectManager
       ∉ (GetObjectManagerSignal found' registered' (cancel a1).1).1.2) /\
    objectManager (GetObjectManagerSignal found' registered' a1).1.1
      = Some om.
Proof.
  intros Hs Hm Hcall.
  assert (objectManager a1 = Some om) as Hom.
  { unfold GetObjectManagerSignal in Hcall. rewrite Hs, Hm in Hcall.
    destruct registered as [s [e|]]; by injection Hcall as <- _ _. }
  split; [done|]. intros found' registered'.
  assert (forall b, objectManager b = Some om ->
            (GetObjectManager
               ∉ (GetObjectManagerSignal found' registered' b).1.2)
            /\ objectManager (GetObjectManagerSignal found' registered' b).1.1
               = Some om) as Hgen.
  { intros b Hb. unfold GetObjectManagerSignal. rewrite Hb.
    destruct (objectManagerSignal b) as [s|]; simpl.
    - split; [apply not_elem_of_nil | done].
    - destruct registered' as [s' [e|]]; simpl; rewrite Hb;
        (split; [|done]);
        rewrite not_elem_of_cons; (split; [done | apply not_elem_of_nil]). }
  split; [by apply Hgen|]. split; [|by apply Hgen].
  apply Hgen. unfold cancel. by destruct (objectManagerSignal a1).
Qed.

Lemma GetObjectManagerSignal_keeps_manager_witness :
  objectManager (mkSubscriber None None (Some 3) None) = Some 3 /\
  forall found' registered',
    (GetObjectManager
       ∉ (GetObjectManagerSignal found' registered'
            (mkSubscriber None None (Some 3) None)).1.2) /\
    (GetObjectManager
       ∉ (GetObjectManagerSignal found' registered'
            (cancel (mkSubscriber None None (Some 3) None)).1).1.2) /\
    objectManager
      (GetObjectManagerSignal found' registered'
         (mkSubscriber None None (Some 3) None)).1.1
    = Some 3.
Proof.
  refine (GetObjectManagerSignal_keeps_manager 3
            (None, Some (T "org.bluez.Error.Failed"))
            (mkSubscriber None None None None)
            (mkSubscriber None None (Some 3) None)
            [GetObjectManager; ManagerRegister (Some 3)]
            (None, Some (T "org.bluez.Error.Failed")) _ _ _).
  - reflexivity.
  - reflexivity.
  - reflexivity.
Defined.

End subscription_facts.

(** ** The property getters and setters *)

Section accessor_facts.
Import dbus media.

(** A getter trusts the type of what the remote side answers.  When
    [GetProperty] returns no error, the getter returns the value if it has
    the type of the getter, and panics if it has any other type. *)
Theorem getters_assert_type (a : MediaTransport1) (name : text) (v : Variant) :
  GetProperty a name = (v, None) ->
  (name = T "Device" ->
     (forall p, v = VObjectPath p -> GetDevice a = Done (p, None)) /\
     ((forall p, v <> VObjectPath p) -> GetDevice a = Panic)) /\
  (name = T "UUID" ->
     (forall s, v = VString s -> GetUUID a = Done (s, None)) /\
     ((forall s, v <> VString s) -> GetUUID a = Panic)) /\
  (name = T "Codec" ->
     (forall n, v = VByte n -> GetCodec a = Done (n, None)) /\
     ((forall n, v <> VByte n) -> GetCodec a = Panic)) /\
  (name = T "Configuration" ->
     (forall b, v = VBytes b -> GetConfiguration a = Done (b, None)) /\
     ((forall b, v <> VBytes b) -> GetConfiguration a = Panic)) /\
  (name = T "State" ->
     (forall s, v = VString s -> GetState a = Done (s, None)) /\
     ((forall s, v <> VString s) -> GetState a = Panic)) /\
  (name = T "Delay" ->
     (forall n, v = VUint16 n -> GetDelay a = Done (n, None)) /\
     ((forall n, v <> VUint16 n) -> GetDelay a = Panic)) /\
  (name = T "Volume" ->
     (forall n, v = VUint16 n -> GetVolume a = Done (n, None)) /\
     ((forall n, v <> VUint16 n) -> GetVolume a = Panic)).
Proof.
  intros H. repeat split; subst name.
  all: unfold GetDevice, GetUUID, GetCodec, GetConfiguration, GetState,
         GetDelay, GetVolume; rewrite H.
  all: try (intros ? ->; done).
  all: intros Hv; destruct v; try done; by edestruct Hv.
Qed.

Lemma getters_assert_type_witness :
  (forall n, VUint32 150 = VUint16 n ->
     GetDelay (mkMediaTransport1 (mkClient (fun _ => (VUint32 150, None))))
     = Done (n, None)) /\
  ((forall n, VUint32 150 <> VUint16 n) ->
     GetDelay (mkMediaTransport1 (mkClient (fun _ => (VUint32 150, None))))
     = Panic).
Proof.
  refine (proj1 (proj2 (proj2 (proj2 (proj2 (proj2
            (getters_assert_type
               (mkMediaTransport1 (mkClient (fun _ => (VUint32 150, None))))
               (T "Delay") (VUint32 150) _)))))) _).
  - reflexivity.
  - reflexivity.
Defined.

(** A setter and its getter agree on the name and the type of the property.
    On a remote side that returns for a property what was set last,
    [GetDelay] after [SetDelay v] returns [v] and [GetVolume] after
    [SetVolume v] returns [v], without error and without panic; and when
    setting one property leaves the others, [SetDelay] does not change what
    [GetVolume] returns, nor [SetVolume] what [GetDelay] returns. *)
Theorem setters_round_trip (S : Type)
  (get : S -> text -> Variant * option error)
  (set : text -> Variant -> S -> S * option error) :
  (forall name v st, get (set name v st).1 name = (v, None)) ->
  (forall name name' v st,
     name <> name' -> get (set name v st).1 name' = get st name') ->
  forall (v : Z) (st : S),
    let remote st := mkMediaTransport1 (mkClient (get st)) in
    GetDelay (remote (setters.SetDelay S set v st).1) = Done (v, None) /\
    GetVolume (remote (setters.SetVolume S set v st).1) = Done (v, None) /\
    GetVolume (remote (setters.SetDelay S set v st).1)
      = GetVolume (remote st) /\
    GetDelay (remote (setters.SetVolume S set v st).1)
      = GetDelay (remote st).
Proof.
  intros Hsame Hother v st remote. subst remote.
  unfold setters.SetDelay, setters.SetVolume, setters.SetProperty.
  unfold GetDelay, GetVolume, GetProperty. simpl.
  rewrite !Hsame. rewrite !Hother by done. done.
Qed.

Lemma setters_round_trip_witness :
  let remote st := mkMediaTransport1 (mkClient (setters.store_get st)) in
  GetDelay (remote (setters.SetDelay _ setters.store_set 150 ∅).1)
    = Done (150%Z, None) /\
  GetVolume (remote (setters.SetVolume _ setters.store_set 150 ∅).1)
    = Done (150%Z, None) /\
  GetVolume (remote (setters.SetDelay _ setters.store_set 150 ∅).1)
    = GetVolume (remote ∅) /\
  GetDelay (remote (setters.SetVolume _ setters.store_set 150 ∅).1)
    = GetDelay (remote ∅).
Proof.
  apply (setters_round_trip _ setters.store_get setters.store_set).
  - intros name v st. unfold setters.store_get, setters.store_set. simpl.
    by rewrite lookup_insert_eq.
  - intros name name' v st Hne.
    unfold setters.store_get, setters.store_set. simpl.
    by rewrite lookup_insert_ne.
Defined.

End accessor_facts.

(** ** The MPU sensor *)

Section sensor_facts.
Import binary sensortag.
Open Scope Z_scope.

(** The varint whose first byte is below 128 is that byte. *)
Lemma ReadUvarint_one_byte (b : Z) (rest : list Z) :
  0 <= b < 128 -> ReadUvarint (b :: rest) = (b, None).
Proof.
  intros Hb. unfold ReadUvarint. simpl.
  assert ((b <? 128) = true) as -> by lia.
  rewrite Z.shiftl_0_r, Z.mod_small by lia. done.
Qed.

(** It decodes to 1 exactly when the byte is 2. *)
Lemma ReadVarint_one_byte (b : Z) (rest : list Z) :
  0 <= b < 128 ->
  exists x, ReadVarint (b :: rest) = (x, None) /\ ((x =? 1) = (b =? 2)).
Proof.
  intros Hb. unfold ReadVarint. rewrite ReadUvarint_one_byte by done.
  eexists. split; [done|].
  rewrite Z.shiftr_div_pow2 by lia. change (2 ^ 1) with 2.
  destruct (Z.odd b) eqn:Hodd.
  - apply Z.odd_spec in Hodd as [k ->]. unfold Z.lnot.
    assert ((2 * k + 1) / 2 = k) as -> by (symmetry; apply Z.div_unique with 1; lia).
    destruct (Z.eqb_spec (Z.pred (- k)) 1), (Z.eqb_spec (2 * k + 1) 2); lia.
  - assert (Z.even b = true) as [k ->]%Z.even_spec.
    { by rewrite <- Z.negb_odd, Hodd. }
    assert (2 * k / 2 = k) as -> by (symmetry; apply Z.div_unique with 0; lia).
    destruct (Z.eqb_spec k 1), (Z.eqb_spec (2 * k) 2); lia.
Qed.

Variable S : Type.
Implicit Types (s : MpuSensor S) (st : S).

(** [IsEnabled] decodes the value of the configuration characteristic as a
    signed varint and compares it with 1: a value whose first byte is below
    128 counts as enabled exactly when that byte is 2, so not when it is 1,
    whatever bytes follow. *)
Theorem IsEnabled_first_byte s st st' (b : Z) (rest : list Z) :
  ReadValue S (cfg S s) st = (st', (b :: rest, None)) ->
  0 <= b < 128 ->
  IsEnabled S s st = (st', ((b =? 2), None)).
Proof.
  intros Hread Hb. unfold IsEnabled. rewrite Hread.
  destruct (ReadVarint_one_byte b rest Hb) as (x & -> & ->). done.
Qed.

(** On a device that reads back the configuration that was written,
    [Enable] does not make the sensor read as enabled.  When the sensor
    reads as not enabled, [Enable] writes its two bytes 127; read back they
    decode to -64, so [IsEnabled] is still false afterwards, and a
    [Disable] that follows returns without writing. *)
Theorem Enable_then_Disable s st st' :
  (forall v st0,
     ReadValue S (cfg S s) (WriteValue S (cfg S s) v st0).1
     = ((WriteValue S (cfg S s) v st0).1, (v, None))) ->
  (forall v st0, (WriteValue S (cfg S s) v st0).2 = None) ->
  IsEnabled S s st = (st', (false, None)) ->
  let st1 := (WriteValue S (cfg S s) [127; 127] st').1 in
  Enable S s st = (st1, None) /\
  IsEnabled S s st1 = (st1, (false, None)) /\
  Disable S s st1 = (st1, None).
Proof.
  intros Hback Hok Hnot st1.
  assert (IsEnabled S s st1 = (st1, (false, None))) as H1.
  { unfold IsEnabled. subst st1. by rewrite Hback. }
  split; [|split; [done|]].
  - unfold Enable. rewrite Hnot. specialize (Hok [127; 127] st').
    subst st1. destruct (WriteValue S (cfg S s) [127; 127] st') as [? [?|]];
      simpl in *; congruence.
  - unfold Disable. by rewrite H1.
Qed.

Variable F : Type.
Variable zero : F.
Variable calcTmpLocal : Z -> F.

(** [Read] takes the third and the fourth byte of the value of the data
    characteristic, the fourth as the high byte, and panics on a value of
    fewer than four bytes. *)
Theorem Read_four_bytes s st st1 st2 (b : list Z) :
  Enable S s st = (st1, None) ->
  ReadValue S (data S s) st1 = (st2, (b, None)) ->
  Read S F zero calcTmpLocal s st
  = if (4 <=? length b)%nat
    then Done (st2, (calcTmpLocal
                       (Z.lor (nth 2 b 0) (Z.shiftl (nth 3 b 0) 8)), None))
    else Panic.
Proof.
  intros He Hr. unfold Read. rewrite He, Hr.
  destruct b as [|b0 [|b1 [|b2 [|b3 rest]]]]; done.
Qed.

(** [StopNotify] closes the data channel and leaves the variable set, so it
    cannot be called twice: once a call got past [Disable] and returned,
    the next call that gets past [Disable] panics on closing the closed
    channel. *)
Theorem StopNotify_twice s (w w1 : World S) (ch : nat) (e : option error) :
  dataChannel S w = Some ch ->
  (Disable S s (device S w)).2 = None ->
  MpuSensor_StopNotify S s w = Done (w1, e) ->
  (Disable S s (device S w1)).2 = None ->
  dataChannel S w1 = Some ch /\ ch ∈ closed S w1 /\
  MpuSensor_StopNotify S s w1 = Panic.
Proof.
  intros Hch Hd Hrun Hd1.
  assert (dataChannel S w1 = Some ch /\ ch ∈ closed S w1) as [H1 H2].
  { unfold MpuSensor_StopNotify in Hrun.
    destruct (Disable S s (device S w)) as [st0 [?|]]; [done|].
    cbn [dataChannel] in Hrun. rewrite Hch in Hrun. unfold close in Hrun.
    cbn [closed] in Hrun. destruct (decide (ch ∈ closed S w)); [done|].
    cbn [mbind outcome_bind device dataChannel closed] in Hrun.
    destruct (IsNotifying S s st0) as [|[st3 [nf [?|]]]]; [done| |].
    - cbn in Hrun. injection Hrun as <- <-. cbn. split; [done|set_solver].
    - cbn in Hrun. destruct nf.
      + destruct (StopNotify S (data S s) st3) as [st4 err].
        injection Hrun as <- <-. cbn. split; [done|set_solver].
      + injection Hrun as <- <-. cbn. split; [done|set_solver]. }
  split; [done|split; [done|]].
  unfold MpuSensor_StopNotify.
  destruct (Disable S s (device S w1)) as [st0 [?|]]; [done|].
  cbn [dataChannel]. rewrite H1. unfold close. cbn [closed].
  by destruct (decide (ch ∈ closed S w1)).
Qed.

End sensor_facts.

Lemma IsEnabled_first_byte_witness :
  sensortag.IsEnabled _
    (sensortag.mkMpuSensor _ sensortag.echo sensortag.echo sensortag.echo)
    [1; 9]%Z
  = ([1; 9]%Z, ((1 =? 2)%Z, None)).
Proof.
  apply (IsEnabled_first_byte (list Z)
           (sensortag.mkMpuSensor _ sensortag.echo sensortag.echo
              sensortag.echo) [1; 9]%Z [1; 9]%Z 1%Z [9]%Z);
    [reflexivity | lia].
Defined.

Lemma Enable_then_Disable_witness :
  let s := sensortag.mkMpuSensor _ sensortag.echo sensortag.echo
             sensortag.echo in
  sensortag.Enable _ s [0]%Z = ([127; 127]%Z, None) /\
  sensortag.IsEnabled _ s [127; 127]%Z = ([127; 127]%Z, (false, None)) /\
  sensortag.Disable _ s [127; 127]%Z = ([127; 127]%Z, None).
Proof.
  apply (Enable_then_Disable (list Z)
           (sensortag.mkMpuSensor _ sensortag.echo sensortag.echo
              sensortag.echo) [0]%Z [0]%Z); reflexivity.
Defined.

Lemma Read_four_bytes_witness :
  sensortag.Read (list Z) Z 0%Z id
    (sensortag.mkMpuSensor _ sensortag.echo sensortag.echo sensortag.echo)
    [2; 0; 5; 1]%Z
  = Done ([2; 0; 5; 1]%Z, (261%Z, None)).
Proof.
  apply (Read_four_bytes (list Z) Z 0%Z id
           (sensortag.mkMpuSensor _ sensortag.echo sensortag.echo
              sensortag.echo)
           [2; 0; 5; 1]%Z [2; 0; 5; 1]%Z [2; 0; 5; 1]%Z [2; 0; 5; 1]%Z);
    reflexivity.
Defined.

Lemma StopNotify_twice_witness :
  let s := sensortag.mkMpuSensor _ sensortag.echo sensortag.echo
             sensortag.echo in
  let w1 := sensortag.mkWorld (list Z) [0]%Z (Some 7) ({[7]} ∪ ∅) in
  sensortag.dataChannel _ w1 = Some 7 /\ 7 ∈ sensortag.closed _ w1 /\
  sensortag.MpuSensor_StopNotify _ s w1 = Panic.
Proof.
  apply (StopNotify_twice (list Z)
           (sensortag.mkMpuSensor _ sensortag.echo sensortag.echo
              sensortag.echo)
           (sensortag.mkWorld (list Z) [0]%Z (Some 7) ∅)
           (sensortag.mkWorld (list Z) [0]%Z (Some 7) ({[7]} ∪ ∅))
           7 None); reflexivity.
Defined.
